(** * braces: the compilation cache and matching facade of [index.js]

    A shallow embedding of [index.js]: the two module-level stores
    [cache] and [makeReCache], and the operations [braces],
    [braces.compile], [braces.expand], [braces.match], [braces.isMatch],
    [braces.matcher] and [braces.makeRe], written as state-passing
    programs over those stores.

    Modelling decisions.
    - The two stores are plain objects, [var cache = {}], used as maps.
      A store is the finite map of its own properties together with
      what makes a plain object differ from a map: a read [obj[key]]
      falls back on the members of [Object.prototype]; a write under
      [__proto__] creates no property and replaces the prototype instead;
      [obj.hasOwnProperty(key)] is a read of the property
      [hasOwnProperty], which a stored entry of that name shadows.  What
      a store would inherit through a replaced prototype, other than
      [__proto__] itself, is not part of the model.
    - An options object is the association list of its own enumerable
      properties in enumeration order, on which the cache key depends.
    - A JavaScript string is a [string], one character per code unit.
    - What lives in [lib/] (the [Braces] class and [utils.escape],
      [utils.unescape]) is a parameter of the development, the class
      [Externals]: deterministic functions that can fail, with no access
      to the two stores, which are local to [index.js].  Every call of a
      [Braces] method is recorded in [engine_log], so that "the engine
      was not invoked" is a statement about the state.
    - [RegExp.prototype.test] is taken as a function of the expression
      and the string (no [g] or [y] flag). *)

From Stdlib Require Import Ascii.
From stdpp Require Import gmap strings list fin_maps.

Set Default Proof Using "Type".
Open Scope string_scope.
Open Scope list_scope.

(** ** Options objects *)

(** The primitive values an option can hold.  The facade does two things
    with the value of an option: it compares it with [true] and [false],
    and it prints it into the cache key.  A number is therefore given by
    its printed form, [shown] being what [String] returns for it
    ([1e+21] for ten to the power 21). *)
Inductive prim :=
| PUndefined
| PNull
| PBool (b : bool)
| PNum (shown : string)
| PStr (s : string).

#[global] Instance prim_eq_dec : EqDecision prim.
Proof. solve_decision. Defined.

(** Own enumerable properties of an options object, in the order in
    which [for (var prop in options)] visits them. *)
Abbreviation Options := (list (string * prim)).

(** [options[prop]] and [options.prop]: [undefined] when absent. *)
Fixpoint get (options : Options) (prop : string) : prim :=
  match options with
  | [] => PUndefined
  | (k, v) :: rest => if decide (k = prop) then v else get rest prop
  end.

(** [obj[prop] = v]: an existing property keeps its place. *)
Fixpoint put (options : Options) (prop : string) (v : prim) : Options :=
  match options with
  | [] => [(prop, v)]
  | (k, x) :: rest =>
      if decide (k = prop) then (k, v) :: rest else (k, x) :: put rest prop v
  end.

(** [String(v)]. *)
Definition ToString (v : prim) : string :=
  match v with
  | PUndefined => "undefined"
  | PNull => "null"
  | PBool true => "true"
  | PBool false => "false"
  | PNum shown => shown
  | PStr s => s
  end.

(** [v === true] and [v !== false]. *)
Definition strict_true (v : prim) : bool :=
  match v with PBool true => true | _ => false end.

Definition strict_not_false (v : prim) : bool :=
  match v with PBool false => false | _ => true end.

(** The options object has an own property [prop]. *)
Definition has_own (options : Options) (prop : string) : bool :=
  bool_decide (prop ∈ options.*1).

(** The key built at the top of [braces.isMatch] and of [braces.makeRe]:
<<
  var key = pattern;
  if (options) {
    for (var prop in options) {
      if (options.hasOwnProperty(prop)) {
        key += ';' + prop + '=' + String(options[prop]);
      }
    }
  }
>>
    [cache_key] is the string the loop builds; [build_key] below is the
    loop with its call of [options.hasOwnProperty]. *)
Definition key_step (options : Options) (key : string) (p : string * prim) : string :=
  key +:+ ";" +:+ p.1 +:+ "=" +:+ ToString (get options p.1).

Definition cache_key (pattern : string) (options : option Options) : string :=
  match options with
  | None => pattern
  | Some o => foldl (key_step o) pattern o
  end.
Arguments cache_key : simpl never.

(** Modelled from the spec: [utils.extend] of [lib/utils.js], "shallow
    merge, later objects win"; an argument that is not an object is
    skipped. *)
Definition assign (target source : Options) : Options :=
  foldl (fun acc p => put acc p.1 (get source p.1)) target source.

Definition utils_extend (target : Options) (sources : list (option Options)) : Options :=
  foldl (fun acc src => match src with Some s => assign acc s | None => acc end)
        target sources.

(** Modelled from the spec: [utils.arrayify] of [lib/utils.js], "single
    scalar promoted to one-element sequence". *)
Inductive candidates :=
| Scalar (s : string)
| Sequence (l : list string).

Definition utils_arrayify (arr : candidates) : list string :=
  match arr with
  | Scalar s => [s]
  | Sequence l => l
  end.

(** ** Strings *)

(** [s.split(sep)] for a one-character separator. *)
Fixpoint split_go (sep : Ascii.ascii) (s : string) (cur : string) : list string :=
  match s with
  | EmptyString => [cur]
  | String c rest =>
      if decide (c = sep) then cur :: split_go sep rest EmptyString
      else split_go sep rest (cur +:+ String c EmptyString)
  end.

Definition split (sep : Ascii.ascii) (s : string) : list string :=
  split_go sep s EmptyString.

(** [parts.join('')]. *)
Definition join_empty (parts : list string) : string :=
  foldr String.append EmptyString parts.

Definition backslash : Ascii.ascii := "\"%char.

(** The output of a compilation: [typeof output === 'string'], or an
    array of strings. *)
Inductive Output :=
| OStr (s : string)
| OArr (l : list string).

#[global] Instance Output_eq_dec : EqDecision Output.
Proof. solve_decision. Defined.

(** ** Plain objects used as maps *)

(** The methods every plain object inherits from [Object.prototype];
    [__proto__], an accessor, is apart. *)
Definition object_prototype_methods : list string :=
  ["constructor"; "hasOwnProperty"; "isPrototypeOf"; "propertyIsEnumerable";
   "toLocaleString"; "toString"; "valueOf";
   "__defineGetter__"; "__defineSetter__"; "__lookupGetter__"; "__lookupSetter__"].

(** A store [var obj = {}]: its own properties, which hold values of
    type [V], and its prototype when a write under [__proto__] has
    replaced [Object.prototype] by an object, of type [P]. *)
Record store (V P : Type) := { own : gmap string V; proto : option P }.
Arguments own {V P} s.
Arguments proto {V P} s.

Definition empty_store {V P} : store V P := {| own := ∅; proto := None |}.

(** [s !! key] is the own property [key] of the store, [dom s] the set
    of the names of its own properties. *)
#[global] Instance store_lookup {V P} : Lookup string V (store V P) :=
  fun key s => own s !! key.

#[global] Instance store_dom {V P} : Dom (store V P) (gset string) :=
  fun s => dom (own s).

(** [obj[key] = v].  An own property is updated; a new name becomes an
    own property, except [__proto__]: the setter inherited from
    [Object.prototype] replaces the prototype when [v] is an object
    ([as_object v] is that object) and does nothing when it is a
    primitive. *)
Definition store_set {V P} (as_object : V → option P)
    (key : string) (v : V) (s : store V P) : store V P :=
  match own s !! key with
  | Some _ => {| own := <[key := v]> (own s); proto := proto s |}
  | None =>
      if decide (key = "__proto__") then
        match as_object v with
        | Some p => {| own := own s; proto := Some p |}
        | None => s
        end
      else {| own := <[key := v]> (own s); proto := proto s |}
  end.

(** What a call of the facade can return besides a boolean, when it
    calls a method of [Object.prototype] in place of a predicate. *)
Inductive returned :=
| Boolean (b : bool)
| HostString (s : string)
| StringObject (s : string).

Coercion Boolean : bool >-> returned.

(** ** What [index.js] requires from [lib/] *)

Class Externals := {
  AST : Type;
  Regex : Type;
  EngineError : Type;
  (** the fields of a compiled object other than [output] *)
  CompiledRest : Type;
  (** [utils.escape(str, options)], [utils.unescape(str, options)] *)
  utils_escape : string → option Options → string;
  utils_unescape : string → option Options → string;
  (** [new Braces(ctor).parse(str, options)] *)
  Braces_parse : option Options → string → option Options → EngineError + AST;
  (** [new Braces(ctor).compile(ast, options)] *)
  Braces_compile :
    option Options → AST → option Options → EngineError + (Output * CompiledRest);
  (** [new Braces(ctor).makeRe(pattern)] *)
  Braces_makeRe : Options → string → EngineError + Regex;
  (** [re.test(str)] *)
  RegExp_test : Regex → string → bool
}.

(** ** Programs over a state that can throw *)

Inductive outcome (E A : Type) :=
| Ret (a : A)
| Throw (e : E).
Arguments Ret {E A} & a.
Arguments Throw {E A} e.

(** The type expected of a pair is passed on to its components, so that
    the coercions below apply inside the result of a call. *)
Arguments pair {A B} & a b.

(** A statement sequence of [index.js]: it reads and writes the state and
    either returns or throws; what was written before a throw stays
    written. *)
Definition M (S E A : Type) : Type := S → outcome E A * S.

Definition ret {S E A} (a : A) : M S E A := fun w => (Ret a, w).

Definition throw {S E A} (e : E) : M S E A := fun w => (Throw e, w).

Definition bind {S E A B} (m : M S E A) (k : A → M S E B) : M S E B :=
  fun w =>
    match m w with
    | (Ret a, w') => k a w'
    | (Throw e, w') => (Throw e, w')
    end.

Definition gets {S E A} (f : S → A) : M S E A := fun w => (Ret (f w), w).

Definition modify {S E} (f : S → S) : M S E unit := fun w => (Ret tt, f w).

(** A step that reads the state and returns or throws. *)
Definition reads {S E A} (f : S → outcome E A) : M S E A := fun w => (f w, w).

Declare Scope js_scope.
Delimit Scope js_scope with js.
Notation "x <- m ;; k" := (bind m (fun x => k))
  (at level 100, m at next level, right associativity,
   format "'[v' x  <-  m  ;; '/' k ']'") : js_scope.
Notation "m ;;; k" := (bind m (fun _ => k))
  (at level 100, right associativity) : js_scope.

Section Facade.
Context `{Ext : Externals}.

(** A regular expression object: [re_id] tells two instances apart. *)
Record RegExp := { re_id : nat; re_rx : Regex }.

(** The closure [function(str) { return re.test(str); }] returned by
    [braces.matcher]. *)
Record predicate := { closed_re : RegExp }.

Definition apply_predicate (f : predicate) (str : string) : bool :=
  RegExp_test (re_rx (closed_re f)) str.

(** What a property of [cache] can hold: [braces] stores outputs in it,
    [braces.isMatch] stores functions in it. *)
Inductive value :=
| VOutput (o : Output)
| VFunction (f : predicate).

(** JavaScript truthiness: only the empty string is falsy here. *)
Definition truthy (v : value) : bool :=
  match v with
  | VOutput (OStr s) => negb (bool_decide (s = EmptyString))
  | VOutput (OArr _) => true
  | VFunction _ => true
  end.

(** The values of [cache] that are objects: a function, an array. *)
Inductive object_value :=
| ObjFunction (f : predicate)
| ObjArray (l : list string).

Definition value_as_object (v : value) : option object_value :=
  match v with
  | VOutput (OStr _) => None
  | VOutput (OArr l) => Some (ObjArray l)
  | VFunction f => Some (ObjFunction f)
  end.

Definition object_to_value (p : object_value) : value :=
  match p with
  | ObjFunction f => VFunction f
  | ObjArray l => VOutput (OArr l)
  end.

(** What a read [cache[key]] finds: a value the facade stored, or a
    member of [Object.prototype] ([Inherited "__proto__"] is that object
    itself, the others are its methods). *)
Inductive found :=
| Stored (v : value)
| Inherited (name : string).

Definition truthy_found (v : found) : bool :=
  match v with
  | Stored v => truthy v
  | Inherited _ => true
  end.

(** [cache[key]]: the own property; or, for [__proto__], the prototype;
    or the method of [Object.prototype] of that name; or [undefined]. *)
Definition cache_get (s : store value object_value) (key : string) : option found :=
  match own s !! key with
  | Some v => Some (Stored v)
  | None =>
      if decide (key = "__proto__") then
        Some (match proto s with
              | Some p => Stored (object_to_value p)
              | None => Inherited "__proto__"
              end)
      else if bool_decide (key ∈ object_prototype_methods) then Some (Inherited key)
      else None
  end.

(** The object returned by [Braces.prototype.compile]. *)
Record Compiled := { output : Output; compiled_rest : CompiledRest }.

Definition set_output (o : Output) (c : Compiled) : Compiled :=
  {| output := o; compiled_rest := compiled_rest c |}.

Inductive engine_call :=
| CallParse (ctor : option Options) (str : string) (options : option Options)
| CallCompile (ctor : option Options) (ast : AST) (options : option Options)
| CallMakeRe (ctor : Options) (pattern : string).

Inductive error :=
| EngineFailure (e : EngineError)
| TypeError (msg : string)
| Error (msg : string).

(** [var makeReCache = {}; var cache = {};] and the record of the calls
    made to the engine. *)
Record World := {
  cache : store value object_value;
  makeReCache : store RegExp RegExp;
  engine_log : list engine_call
}.

Definition init : World :=
  {| cache := empty_store; makeReCache := empty_store; engine_log := [] |}.

(** [cache[key] = v] *)
Definition set_cache (key : string) (v : value) (w : World) : World :=
  {| cache := store_set value_as_object key v (cache w);
     makeReCache := makeReCache w;
     engine_log := engine_log w |}.

(** [makeReCache[key] = re] *)
Definition set_makeReCache (key : string) (re : RegExp) (w : World) : World :=
  {| cache := cache w;
     makeReCache := store_set Some key re (makeReCache w);
     engine_log := engine_log w |}.

Definition log (c : engine_call) (w : World) : World :=
  {| cache := cache w;
     makeReCache := makeReCache w;
     engine_log := engine_log w ++ [c] |}.

Abbreviation JS := (M World error).

Definition lift {A} (r : EngineError + A) : JS A :=
  match r with
  | inl e => throw (EngineFailure e)
  | inr a => ret a
  end.

(** The loop that builds the key.  It calls [options.hasOwnProperty] for
    each property it visits: with an own property of that name, whose
    value is no function, the first call throws. *)
Definition build_key (pattern : string) (options : option Options)
    : outcome error string :=
  match options with
  | None => Ret pattern
  | Some o =>
      if has_own o "hasOwnProperty"
      then Throw (TypeError "options.hasOwnProperty is not a function")
      else Ret (cache_key pattern options)
  end.

(** [cache.hasOwnProperty(key)].  The method is the one of
    [Object.prototype] unless [cache] has an own property
    [hasOwnProperty]: a stored predicate is then called in its place, and
    a stored output is no function. *)
Definition cache_hasOwnProperty (s : store value object_value) (key : string)
    : outcome error bool :=
  match own s !! "hasOwnProperty" with
  | None => Ret (bool_decide (is_Some (own s !! key)))
  | Some (VFunction f) => Ret (apply_predicate f key)
  | Some (VOutput _) => Throw (TypeError "cache.hasOwnProperty is not a function")
  end.

(** [makeReCache.hasOwnProperty(key)] followed, when it answers [true],
    by the read [makeReCache[key]]: the own property found, if any.  An
    own property [hasOwnProperty] of [makeReCache] is a regular
    expression, which is no function. *)
Definition makeReCache_lookup (s : store RegExp RegExp) (key : string)
    : outcome error (option RegExp) :=
  match own s !! "hasOwnProperty" with
  | None => Ret (own s !! key)
  | Some _ => Throw (TypeError "makeReCache.hasOwnProperty is not a function")
  end.

(** [m(str)] for a method [m] of [Object.prototype] called as a plain
    function, [this] being [undefined] in strict code. *)
Definition call_inherited (name str : string) : outcome error returned :=
  if decide (name = "constructor") then Ret (StringObject str)
  else if decide (name = "toString") then Ret (HostString "[object Undefined]")
  else if decide (name = "isPrototypeOf") then Ret (Boolean false)
  else if decide (name = "__proto__") then Throw (TypeError "matcher is not a function")
  else Throw (TypeError "Cannot convert undefined or null to object").

(** [matcher(str)] where [matcher] was read from [cache]: calling what
    is not a function throws. *)
Definition call (m : option found) (str : string) : outcome error returned :=
  match m with
  | Some (Stored (VFunction f)) => Ret (Boolean (apply_predicate f str))
  | Some (Stored (VOutput _)) => Throw (TypeError "matcher is not a function")
  | Some (Inherited name) => call_inherited name str
  | None => Throw (TypeError "matcher is not a function")
  end.

Open Scope js_scope.

(** The three engine entry points, each recorded in the log. *)
Definition engine_parse (ctor : option Options) (str : string)
    (options : option Options) : JS AST :=
  modify (log (CallParse ctor str options)) ;;;
  lift (Braces_parse ctor str options).

Definition engine_compile (ctor : option Options) (ast : AST)
    (options : option Options) : JS Compiled :=
  modify (log (CallCompile ctor ast options)) ;;;
  c <- lift (Braces_compile ctor ast options) ;;
  ret {| output := c.1; compiled_rest := c.2 |}.

(** The object that [makeRe] returns is new: it is numbered by the
    position of the call in the log. *)
Definition engine_makeRe (ctor : Options) (pattern : string) : JS RegExp :=
  id <- gets (fun w => length (engine_log w)) ;;
  modify (log (CallMakeRe ctor pattern)) ;;;
  rx <- lift (Braces_makeRe ctor pattern) ;;
  ret {| re_id := id; re_rx := rx |}.

(** [braces.compile], lines 32-44. *)
Definition compile (str : string) (options : option Options) : JS Compiled :=
  ast <- engine_parse options (utils_escape str options) options ;;
  compiled <- engine_compile options ast options ;;
  match output compiled with
  | OStr s => ret (set_output (OStr (utils_unescape s options)) compiled)
  | OArr l =>
      ret (set_output (OArr (map (fun str => utils_unescape str options) l)) compiled)
  end.

(** [braces], lines 25-30.  [if (cache[str]) return cache[str];] tests
    the value found, not the presence of the key, and finds the members
    of [Object.prototype] as well. *)
Definition braces (str : string) (options : option Options) : JS found :=
  c <- gets (fun w => cache_get (cache w) str) ;;
  let compile_and_store : JS found :=
    result <- compile str options ;;
    modify (set_cache str (VOutput (output result))) ;;;
    ret (Stored (VOutput (output result))) in
  match c with
  | Some v => if truthy_found v then ret v else compile_and_store
  | None => compile_and_store
  end.

(** [braces.expand], lines 46-51. *)
Definition expand (str : string) (options : option Options) : JS Output :=
  let opts := utils_extend [("unescape", PBool true)]
                [options; Some [("expand", PBool true); ("makeRe", PBool false)]] in
  if bool_decide (str = EmptyString) || bool_decide (String.length str ≤ 2)%nat
  then ret (OArr [str])
  else
    c <- compile str (Some opts) ;;
    ret (output c).

(** [braces.makeRe], lines 177-196.  The store is consulted only when
    [options.cache !== false]. *)
Definition makeRe (pattern : string) (options : option Options) : JS RegExp :=
  key <- reads (fun _ => build_key pattern options) ;;
  let options := default [] options in
  c <- (if strict_not_false (get options "cache")
        then reads (fun w => makeReCache_lookup (makeReCache w) key)
        else ret None) ;;
  match c with
  | Some re => ret re
  | None =>
      regex <- engine_makeRe options pattern ;;
      modify (set_makeReCache key regex) ;;;
      ret regex
  end.

(** [braces.matcher], lines 154-160. *)
Definition matcher (pattern : string) (options : option Options) : JS predicate :=
  re <- makeRe pattern options ;;
  ret {| closed_re := re |}.

(** [braces.isMatch], lines 115-133. *)
Definition isMatch (str pattern : string) (options : option Options) : JS returned :=
  key <- reads (fun _ => build_key pattern options) ;;
  has <- reads (fun w => cache_hasOwnProperty (cache w) key) ;;
  m <- (if has : bool then gets (fun w => cache_get (cache w) key)
        else
          f <- matcher pattern options ;;
          modify (set_cache key (VFunction f)) ;;;
          ret (Some (Stored (VFunction f)))) ;;
  reads (fun _ => call m str).

(** The loop of [braces.match], lines 78-83: [res.push(ele)] for each
    element that passes. *)
Fixpoint match_loop (isMatch : predicate) (arr res : list string) : list string :=
  match arr with
  | [] => res
  | ele :: rest =>
      match_loop isMatch rest (if apply_predicate isMatch ele then res ++ [ele] else res)
  end.

Definition quote : string := String (ascii_of_nat 34) EmptyString.

Definition no_matches_message (pattern : string) : string :=
  "no matches found for " +:+ quote +:+ pattern +:+ quote.

(** [braces.match], lines 69-94. *)
Definition match_ (arr : candidates) (pattern : string)
    (options : option Options) : JS (list string) :=
  let arr := utils_arrayify arr in
  let options := default [] options in
  isMatch <- matcher pattern (Some options) ;;
  let res := match_loop isMatch arr [] in
  if bool_decide (length res = 0) then
    if strict_true (get options "failglob") then
      throw (Error (no_matches_message pattern))
    else if strict_true (get options "nonull") || strict_true (get options "nullglob")
    then ret [join_empty (split backslash pattern)]
    else ret res
  else ret res.

End Facade.

Arguments World {Ext}.
Arguments value {Ext}.
Arguments object_value {Ext}.
Arguments found {Ext}.
Arguments Compiled {Ext}.
Arguments RegExp {Ext}.
Arguments predicate {Ext}.
Arguments error {Ext}.
Arguments engine_call {Ext}.

(** An output or a function stored by the facade is read as what a read
    of [cache] finds. *)
Coercion Stored : value >-> found.
(** ** An engine for the brace-free fragment

    A pattern with no brace denotes itself: in expand mode it compiles
    to the one-element sequence holding it, in regex mode to its own
    text, and its regular expression matches exactly that text.  A
    pattern with a brace is declined with an engine failure.  No
    character needs escaping in this fragment. *)
Module LiteralEngine.

Fixpoint has_brace (s : string) : bool :=
  match s with
  | EmptyString => false
  | String c rest =>
      bool_decide (c = "{"%char) || bool_decide (c = "}"%char) || has_brace rest
  end.

Definition parse (ctor : option Options) (s : string) (options : option Options)
    : string + string :=
  if has_brace s then inl "brace groups are not supported" else inr s.

Definition compile_ast (ctor : option Options) (ast : string)
    (options : option Options) : string + (Output * unit) :=
  if strict_true (get (default [] options) "expand")
  then inr (OArr [ast], tt)
  else inr (OStr ast, tt).

Definition make_regex (ctor : Options) (pattern : string) : string + string :=
  if has_brace pattern then inl "brace groups are not supported" else inr pattern.

#[export] Instance literal : Externals := {|
  AST := string;
  Regex := string;
  EngineError := string;
  CompiledRest := unit;
  utils_escape := fun s _ => s;
  utils_unescape := fun s _ => s;
  Braces_parse := parse;
  Braces_compile := compile_ast;
  Braces_makeRe := make_regex;
  RegExp_test := fun rx s => bool_decide (rx = s)
|}.

(** The compiled object of this engine: an output and nothing else. *)
Definition compiled (o : Output) : Compiled :=
  {| output := o; compiled_rest := tt |}.

(** The expression of this engine that matches exactly [rx]. *)
Definition regexp (id : nat) (rx : string) : RegExp :=
  {| re_id := id; re_rx := rx |}.

End LiteralEngine.

(** ** Vocabulary of the statements *)

Section Vocabulary.
Context `{Ext : Externals}.

(** The [cache[str]] that [braces] is willing to return. *)
Definition cache_hit (w : World) (str : string) : option found :=
  match cache_get (cache w) str with
  | Some v => if truthy_found v then Some v else None
  | None => None
  end.

Definition unescape_output (options : option Options) (c : Compiled) : Compiled :=
  match output c with
  | OStr s => set_output (OStr (utils_unescape s options)) c
  | OArr l => set_output (OArr (map (fun str => utils_unescape str options) l)) c
  end.

(** The outcome of [braces.compile] and the engine calls it makes, as
    functions of its arguments alone; [compile_spec] shows that
    [compile str options w] is [compile_result str options] in the state
    [w] with [compile_calls str options] added to its log. *)
Definition compile_result (str : string) (options : option Options)
    : outcome error Compiled :=
  match Braces_parse options (utils_escape str options) options with
  | inl e => Throw (EngineFailure e)
  | inr ast =>
      match Braces_compile options ast options with
      | inl e => Throw (EngineFailure e)
      | inr c => Ret (unescape_output options {| output := c.1; compiled_rest := c.2 |})
      end
  end.

Definition compile_calls (str : string) (options : option Options) : list engine_call :=
  CallParse options (utils_escape str options) options ::
  match Braces_parse options (utils_escape str options) options with
  | inl _ => []
  | inr ast => [CallCompile options ast options]
  end.

Definition log_all (cs : list engine_call) (w : World) : World :=
  {| cache := cache w;
     makeReCache := makeReCache w;
     engine_log := engine_log w ++ cs |}.

(** [braces] called once for each options object of [os], in order. *)
Fixpoint braces_each (str : string) (os : list (option Options)) (w : World)
    : list (outcome error found) * World :=
  match os with
  | [] => ([], w)
  | o :: rest =>
      let r := braces str o w in
      let rs := braces_each str rest r.2 in
      (r.1 :: rs.1, rs.2)
  end.

(** Every regular expression in [makeReCache] was made by a call that
    the log already records. *)
Definition ids_bounded (w : World) : Prop :=
  ∀ key re, makeReCache w !! key = Some re → re_id re < length (engine_log w).

(** [s] with every backslash removed. *)
Fixpoint remove_backslashes (s : string) : string :=
  match s with
  | EmptyString => EmptyString
  | String c rest =>
      if decide (c = backslash) then remove_backslashes rest
      else String c (remove_backslashes rest)
  end.




(** What [braces] returns when it compiles. *)
Definition fresh_output (str : string) (options : option Options)
    : outcome error found :=
  match compile_result str options with
  | Ret c => Ret (Stored (VOutput (output c)))
  | Throw e => Throw e
  end.

(** [braces.compile] returns, and its output is the empty string. *)
Definition falsy_output (str : string) (options : option Options) : Prop :=
  ∃ c, compile_result str options = Ret c ∧ truthy (VOutput (output c)) = false.

(** What [braces.match] does once the predicate is built. *)
Definition match_result (options : Options) (pattern : string)
    (res : list string) : outcome error (list string) :=
  if bool_decide (length res = 0) then
    if strict_true (get options "failglob") then
      Throw (Error (no_matches_message pattern))
    else if strict_true (get options "nonull") || strict_true (get options "nullglob")
    then Ret [join_empty (split backslash pattern)]
    else Ret res
  else Ret res.

(** [braces.expand] hands the pattern to [braces.compile] with an
    options object that satisfies [P]. *)
Definition expand_delegates (P : Options → Prop) (str : string)
    (options : option Options) : Prop :=
  ∀ w, ∃ o, P o ∧
    expand str options w = (c <- compile str (Some o) ;; ret (output c))%js w.

(** The reading of [braces.expand] as overriding the caller on all three
    of [expand], [makeRe] and [unescape]. *)
Definition forced_three (o : Options) : Prop :=
  get o "expand" = PBool true ∧
  get o "makeRe" = PBool false ∧
  get o "unescape" = PBool true.

(** What line 47 builds: [expand] and [makeRe] are overridden,
    [unescape] is a default that the caller's own value replaces, every
    other property is the caller's. *)
Definition forced_two (options : option Options) (o : Options) : Prop :=
  get o "expand" = PBool true ∧
  get o "makeRe" = PBool false ∧
  get o "unescape" =
    (if has_own (default [] options) "unescape"
     then get (default [] options) "unescape" else PBool true) ∧
  ∀ prop, prop ≠ "expand" → prop ≠ "makeRe" → prop ≠ "unescape" →
          get o prop = get (default [] options) prop.

(** What [braces.makeRe] does when it goes to the engine. *)
Definition makeRe_build (pattern : string) (options : option Options) (w : World)
    : outcome error RegExp * World :=
  match Braces_makeRe (default [] options) pattern with
  | inl e =>
      (Throw (EngineFailure e), log (CallMakeRe (default [] options) pattern) w)
  | inr rx =>
      let re := {| re_id := length (engine_log w); re_rx := rx |} in
      (Ret re,
       set_makeReCache (cache_key pattern options) re
         (log (CallMakeRe (default [] options) pattern) w))
  end.

End Vocabulary.

(** ** Sequences of calls *)

Section Calls.
Context `{Ext : Externals}.

(** One call of an operation of the facade. *)
Inductive facade_call :=
| DoBraces (str : string) (options : option Options)
| DoCompile (str : string) (options : option Options)
| DoExpand (str : string) (options : option Options)
| DoMatch (arr : candidates) (pattern : string) (options : option Options)
| DoIsMatch (str pattern : string) (options : option Options)
| DoMatcher (pattern : string) (options : option Options)
| DoMakeRe (pattern : string) (options : option Options).

(** The state the call leaves, whether it returns or throws. *)
Definition run_call (c : facade_call) (w : World) : World :=
  match c with
  | DoBraces str options => (braces str options w).2
  | DoCompile str options => (compile str options w).2
  | DoExpand str options => (expand str options w).2
  | DoMatch arr pattern options => (match_ arr pattern options w).2
  | DoIsMatch str pattern options => (isMatch str pattern options w).2
  | DoMatcher pattern options => (matcher pattern options w).2
  | DoMakeRe pattern options => (makeRe pattern options w).2
  end.

Definition run_calls (cs : list facade_call) (w : World) : World :=
  foldl (fun w c => run_call c w) w cs.

(** The call does not carry [cache: false]. *)
Definition caching_enabled (c : facade_call) : bool :=
  match c with
  | DoMatch _ _ options | DoIsMatch _ _ options
  | DoMatcher _ options | DoMakeRe _ options =>
      strict_not_false (get (default [] options) "cache")
  | _ => true
  end.

(** The key under which the call consults and fills [makeReCache], if
    it does. *)
Definition regex_key (c : facade_call) : option string :=
  match c with
  | DoMatch _ pattern options | DoIsMatch _ pattern options
  | DoMatcher pattern options | DoMakeRe pattern options =>
      Some (cache_key pattern options)
  | _ => None
  end.

(** The call leaves the method [hasOwnProperty] of [makeReCache] alone:
    it carries no [cache: false], and its key is not that name. *)
Definition gentle (c : facade_call) : Prop :=
  caching_enabled c = true ∧ regex_key c ≠ Some "hasOwnProperty".

(** What a gentle call keeps: the method [hasOwnProperty] of
    [makeReCache] unshadowed, and an entry that is there. *)
Definition kept (key : string) (re : RegExp) (w : World) : Prop :=
  makeReCache w !! "hasOwnProperty" = None ∧ makeReCache w !! key = Some re.

(** [c] occurs in [s]. *)
Fixpoint mentions (c : Ascii.ascii) (s : string) : bool :=
  match s with
  | EmptyString => false
  | String x rest => bool_decide (x = c) || mentions c rest
  end.

(** The text that one own property adds to a cache key. *)
Definition key_part (options : Options) (kv : string * prim) : string :=
  ";" +:+ kv.1 +:+ "=" +:+ ToString (get options kv.1).

(** Nothing was removed on the way from [w] to [w']: the keys of both
    stores are still there and the log was only added to. *)
Definition extends (w w' : World) : Prop :=
  dom (cache w) ⊆ dom (cache w') ∧
  dom (makeReCache w) ⊆ dom (makeReCache w') ∧
  engine_log w `prefix_of` engine_log w'.

End Calls.

(** ** Sample data over the engine of the brace-free fragment *)

Section Samples.
Import LiteralEngine.
Existing Instance literal.


(** A sequence of calls, none of which carries [cache: false]. *)
Definition sample_calls : list facade_call :=
  [DoBraces "x" None; DoIsMatch "a" "b" None; DoExpand "abc" None;
   DoMatch (Sequence ["q"]) "q" (Some [("nonull", PBool true)]);
   DoMakeRe "z{" None; DoMatcher "a" (Some [("cache", PBool true)])].

End Samples.

(** * Properties *)

Ltac js_unfold :=
  unfold bind, gets, modify, ret, throw, lift in *; simpl in *.

Section Properties.
Context `{Ext : Externals}.
Implicit Types (w : World) (str pattern : string) (options : option Options).

Lemma log_all_nil w : log_all [] w = w.
Proof. destruct w; unfold log_all; simpl. by rewrite app_nil_r. Qed.

Lemma log_all_app cs1 cs2 w : log_all cs2 (log_all cs1 w) = log_all (cs1 ++ cs2) w.
Proof. unfold log_all; simpl. by rewrite app_assoc. Qed.

Lemma compile_spec str options w :
  compile str options w = (compile_result str options, log_all (compile_calls str options) w).
Proof.
  unfold compile, engine_parse, engine_compile, compile_result, compile_calls.
  js_unfold.
  destruct (Braces_parse options (utils_escape str options) options) as [e|ast]; simpl.
  - reflexivity.
  - destruct (Braces_compile options ast options) as [e|[o r]]; simpl.
    + unfold log_all, log; simpl. by rewrite <- app_assoc.
    + unfold unescape_output; simpl.
      destruct o; simpl; unfold log_all, log; simpl; by rewrite <- app_assoc.
Qed.

(** C8. [braces.compile] leaves [cache] and [makeReCache] as they were,
    whether it returns or throws; only the record of engine calls grows. *)
Theorem compile_preserves_stores str options w :
  cache (compile str options w).2 = cache w ∧
  makeReCache (compile str options w).2 = makeReCache w ∧
  engine_log (compile str options w).2 = engine_log w ++ compile_calls str options.
Proof. rewrite compile_spec. simpl. done. Qed.

(** C4. For a pattern of length at most 2, the empty string included,
    [braces.expand] returns the one-element sequence holding the pattern,
    and the state, with its record of engine calls, is unchanged. *)
Theorem expand_short str options w :
  (String.length str ≤ 2)%nat →
  expand str options w = (Ret (OArr [str]), w).
Proof.
  intros Hlen. unfold expand.
  rewrite (bool_decide_eq_true_2 _ Hlen).
  by rewrite orb_true_r.
Qed.


(** *** Options objects: reading after writing *)

Lemma get_put (o : Options) k v k' :
  get (put o k v) k' = if decide (k = k') then v else get o k'.
Proof.
  induction o as [|[k0 v0] o IH]; simpl.
  - by destruct (decide (k = k')).
  - destruct (decide (k0 = k)) as [->|Hne]; simpl.
    + destruct (decide (k = k')); done.
    + destruct (decide (k0 = k')) as [->|Hne'].
      * by rewrite decide_False by done.
      * apply IH.
Qed.

Lemma has_own_cons (l : Options) k0 v0 k :
  has_own ((k0, v0) :: l) k = bool_decide (k0 = k) || has_own l k.
Proof.
  unfold has_own. simpl.
  destruct (decide (k0 = k)) as [->|Hne].
  - rewrite (bool_decide_eq_true_2 (k = k)) by done.
    apply bool_decide_eq_true_2, elem_of_cons. by left.
  - rewrite (bool_decide_eq_false_2 (k0 = k)) by done. simpl.
    apply bool_decide_ext. rewrite elem_of_cons.
    split; [by intros [->|]|by right].
Qed.

Lemma has_own_nil k : has_own [] k = false.
Proof. unfold has_own. apply bool_decide_eq_false_2. simpl. apply not_elem_of_nil. Qed.

Lemma get_foldl_put (g : string → prim) (l t : Options) k :
  get (foldl (fun acc kv => put acc kv.1 (g kv.1)) t l) k =
  if has_own l k then g k else get t k.
Proof.
  revert t. induction l as [|[k0 v0] l IH]; intros t.
  - done.
  - rewrite has_own_cons. simpl. rewrite IH, get_put.
    destruct (decide (k0 = k)) as [->|Hne].
    + rewrite bool_decide_eq_true_2 by done. simpl.
      by destruct (has_own l k).
    + by rewrite bool_decide_eq_false_2 by done.
Qed.

Lemma get_assign (t s : Options) k :
  get (assign t s) k = if has_own s k then get s k else get t k.
Proof. unfold assign. apply get_foldl_put. Qed.

Lemma get_absent (o : Options) k : has_own o k = false → get o k = PUndefined.
Proof.
  induction o as [|[k0 v0] o IH]; simpl; [done|].
  rewrite has_own_cons. intros H. apply orb_false_elim in H as [H1 H2].
  apply bool_decide_eq_false_1 in H1. rewrite decide_False by done. by apply IH.
Qed.

Lemma expand_options_forced_two options :
  forced_two options
    (utils_extend [("unescape", PBool true)]
       [options; Some [("expand", PBool true); ("makeRe", PBool false)]]).
Proof.
  unfold forced_two, utils_extend. simpl.
  repeat split.
  - by rewrite get_assign.
  - by rewrite get_assign.
  - rewrite get_assign.
    change (has_own [("expand", PBool true); ("makeRe", PBool false)] "unescape")
      with false.
    destruct options as [o|]; simpl; [|done].
    rewrite get_assign. by destruct (has_own o "unescape").
  - intros prop H1 H2 H3. rewrite get_assign.
    rewrite !has_own_cons, has_own_nil.
    rewrite !bool_decide_eq_false_2 by done. simpl.
    destruct options as [o|]; simpl.
    + rewrite get_assign. destruct (has_own o prop) eqn:Ho; [done|].
      rewrite (get_absent o prop Ho). simpl. rewrite decide_False; [done|congruence].
    + rewrite decide_False; [done|congruence].
Qed.

(** C3, amended. For a pattern longer than 2, [braces.expand] hands the
    pattern to [braces.compile] with [expand] forced to [true] and
    [makeRe] forced to [false] whatever the caller gave for them;
    [unescape] is [true] only when the caller gave no [unescape] of its
    own, and is the caller's value otherwise; every other option is the
    caller's. *)
Theorem expand_forces_expand_makeRe str options :
  (2 < String.length str)%nat →
  expand_delegates (forced_two options) str options.
Proof.
  intros Hlen w.
  exists (utils_extend [("unescape", PBool true)]
            [options; Some [("expand", PBool true); ("makeRe", PBool false)]]).
  split; [apply expand_options_forced_two|].
  unfold expand.
  rewrite (bool_decide_eq_false_2 (String.length str ≤ 2)%nat) by lia.
  rewrite (bool_decide_eq_false_2 (str = EmptyString)); [done|].
  intros ->. simpl in Hlen. lia.
Qed.


(** *** Plain objects used as maps *)

Lemma lookup_own {V P} (s : store V P) key : s !! key = own s !! key.
Proof. done. Qed.

Lemma lookup_store_set_eq {V P} (as_object : V → option P) key v (s : store V P) :
  is_Some (s !! key) ∨ key ≠ "__proto__" →
  store_set as_object key v s !! key = Some v.
Proof.
  rewrite !lookup_own. unfold store_set. intros Hkey.
  destruct (own s !! key) as [v0|] eqn:Hown; simpl.
  - by rewrite lookup_insert_eq.
  - destruct Hkey as [[? [=]]|Hne].
    rewrite decide_False by done. simpl. by rewrite lookup_insert_eq.
Qed.

Lemma lookup_store_set_ne {V P} (as_object : V → option P) key key' v (s : store V P) :
  key ≠ key' → store_set as_object key v s !! key' = s !! key'.
Proof.
  rewrite !lookup_own. unfold store_set. intros Hne.
  destruct (own s !! key) as [v0|]; simpl.
  - by rewrite lookup_insert_ne.
  - destruct (decide (key = "__proto__")).
    + by destruct (as_object v).
    + simpl. by rewrite lookup_insert_ne.
Qed.

Lemma dom_store_set {V P} (as_object : V → option P) key v (s : store V P) :
  dom s ⊆ dom (store_set as_object key v s).
Proof.
  unfold dom, store_dom, store_set.
  destruct (own s !! key) as [v0|]; simpl.
  - apply dom_insert_subseteq.
  - destruct (decide (key = "__proto__")).
    + by destruct (as_object v).
    + simpl. apply dom_insert_subseteq.
Qed.

(** A write under [__proto__] makes no own property. *)
Lemma lookup_store_set_proto {V P} (as_object : V → option P) v (s : store V P) key :
  s !! "__proto__" = None →
  store_set as_object "__proto__" v s !! key = s !! key.
Proof.
  rewrite !lookup_own. unfold store_set. intros ->. simpl.
  by destruct (as_object v).
Qed.

(** A write under a name other than [hasOwnProperty] leaves the method
    as it is. *)
Lemma store_set_keeps_method {V P} (as_object : V → option P) key v (s : store V P) :
  key ≠ "hasOwnProperty" →
  store_set as_object key v s !! "hasOwnProperty" = s !! "hasOwnProperty".
Proof. apply lookup_store_set_ne. Qed.

(** *** The top-level cache *)

Lemma braces_hit str options w v :
  cache_hit w str = Some v → braces str options w = (Ret v, w).
Proof.
  unfold cache_hit, braces. js_unfold.
  destruct (cache_get (cache w) str) as [v'|]; [|done].
  destruct (truthy_found v'); [|done]. by intros [= ->].
Qed.

Lemma braces_miss str options w :
  cache_hit w str = None →
  braces str options w =
    match compile_result str options with
    | Ret c =>
        (Ret (Stored (VOutput (output c))),
         set_cache str (VOutput (output c)) (log_all (compile_calls str options) w))
    | Throw e => (Throw e, log_all (compile_calls str options) w)
    end.
Proof.
  unfold cache_hit, braces. intros Hmiss.
  assert (bind (compile str options)
            (fun result =>
               bind (modify (set_cache str (VOutput (output result))))
                    (fun _ => ret (Stored (VOutput (output result))))) w =
          match compile_result str options with
          | Ret c =>
              (Ret (Stored (VOutput (output c))),
               set_cache str (VOutput (output c)) (log_all (compile_calls str options) w))
          | Throw e => (Throw e, log_all (compile_calls str options) w)
          end) as Hrun.
  { unfold bind at 1. rewrite compile_spec.
    by destruct (compile_result str options). }
  unfold bind at 1, gets at 1.
  destruct (cache_get (cache w) str) as [v|]; [|exact Hrun].
  destruct (truthy_found v); [done|exact Hrun].
Qed.

(** When [cache[str]] is falsy, [cache[str] = v] makes an own property:
    the read of [__proto__] is never falsy unless the name is an own
    property already. *)
Lemma cache_hit_none_settable w str :
  cache_hit w str = None → is_Some (cache w !! str) ∨ str ≠ "__proto__".
Proof.
  unfold cache_hit, cache_get. rewrite lookup_own.
  destruct (own (cache w) !! str) as [v|]; [by left; eexists|].
  destruct (decide (str = "__proto__")) as [->|Hne]; [|by right].
  by destruct (proto (cache w)) as [[f|l]|].
Qed.

Lemma cache_get_stored w str v :
  cache w !! str = Some v → cache_get (cache w) str = Some (Stored v).
Proof. rewrite lookup_own. unfold cache_get. by intros ->. Qed.

Lemma cache_hit_set_cache str v w0 w :
  cache_hit w0 str = None → cache w = cache w0 →
  cache_hit (set_cache str v w) str = if truthy v then Some (Stored v) else None.
Proof.
  intros Hmiss Hsame. unfold cache_hit.
  rewrite (cache_get_stored _ _ v); [done|].
  simpl. rewrite Hsame. apply lookup_store_set_eq.
  by apply cache_hit_none_settable.
Qed.

Lemma cache_hit_log_all cs w str : cache_hit (log_all cs w) str = cache_hit w str.
Proof. done. Qed.


(** C10. [braces] tests the truthiness of [cache[str]], not its
    presence: as long as the output of a pattern is falsy under the
    options of each call, every call in a row compiles again, with the
    options of that call, and the stored entry is never served. *)
Theorem braces_falsy_recompiles str (os : list (option Options)) w :
  cache_hit w str = None →
  (∀ o, o ∈ os → falsy_output str o) →
  (braces_each str os w).1 = map (fresh_output str) os ∧
  engine_log (braces_each str os w).2 =
    engine_log w ++ concat (map (compile_calls str) os) ∧
  cache_hit (braces_each str os w).2 str = None.
Proof.
  revert w. induction os as [|o os IH]; intros w Hmiss Hfalsy.
  - simpl. by rewrite app_nil_r.
  - destruct (Hfalsy o) as (c & Hc & Hf); [by left|].
    assert (cache_hit (braces str o w).2 str = None) as Hmiss'.
    { rewrite (braces_miss _ _ _ Hmiss), Hc. simpl.
      by rewrite (cache_hit_set_cache _ _ w), Hf. }
    destruct (IH (braces str o w).2 Hmiss') as (IH1 & IH2 & IH3).
    { intros o' Ho'. apply Hfalsy. by right. }
    simpl. rewrite IH1, IH2. split; [|split; [|done]].
    + f_equal. rewrite (braces_miss _ _ _ Hmiss). unfold fresh_output.
      by destruct (compile_result str o).
    + rewrite (braces_miss _ _ _ Hmiss), Hc. simpl. by rewrite <- app_assoc.
Qed.


(** *** The cache key *)

Lemma build_key_ok pattern options :
  has_own (default [] options) "hasOwnProperty" = false →
  build_key pattern options = Ret (cache_key pattern options).
Proof. destruct options as [o|]; simpl; [|done]. by intros ->. Qed.

Lemma build_key_ret pattern options key :
  build_key pattern options = Ret key →
  key = cache_key pattern options ∧
  has_own (default [] options) "hasOwnProperty" = false.
Proof.
  destruct options as [o|]; simpl.
  - destruct (has_own o "hasOwnProperty"); [done|]. by intros [= <-].
  - by intros [= <-].
Qed.

Lemma build_key_throw pattern options e :
  build_key pattern options = Throw e →
  e = TypeError "options.hasOwnProperty is not a function" ∧
  has_own (default [] options) "hasOwnProperty" = true.
Proof.
  destruct options as [o|]; simpl; [|done].
  destruct (has_own o "hasOwnProperty"); [|done]. by intros [= <-].
Qed.

Lemma cache_key_default pattern options :
  cache_key pattern (Some (default [] options)) = cache_key pattern options.
Proof. by destruct options. Qed.

Lemma build_key_default pattern options :
  build_key pattern (Some (default [] options)) = build_key pattern options.
Proof. by destruct options. Qed.

(** *** The regular-expression cache *)

Lemma makeRe_spec pattern options w :
  makeRe pattern options w =
    match build_key pattern options with
    | Throw e => (Throw e, w)
    | Ret _ =>
        if strict_not_false (get (default [] options) "cache") then
          match makeReCache_lookup (makeReCache w) (cache_key pattern options) with
          | Throw e => (Throw e, w)
          | Ret (Some re) => (Ret re, w)
          | Ret None => makeRe_build pattern options w
          end
        else makeRe_build pattern options w
    end.
Proof.
  unfold makeRe, engine_makeRe, makeRe_build. unfold reads, bind at 1.
  destruct (build_key pattern options) as [key|e] eqn:Hkey; [|done].
  apply build_key_ret in Hkey as [-> _].
  destruct (strict_not_false (get (default [] options) "cache")).
  - unfold bind at 1.
    destruct (makeReCache_lookup (makeReCache w) (cache_key pattern options))
      as [[re|]|e]; [done| |done].
    js_unfold. by destruct (Braces_makeRe (default [] options) pattern).
  - js_unfold. by destruct (Braces_makeRe (default [] options) pattern).
Qed.

Lemma makeReCache_lookup_plain (s : store RegExp RegExp) key :
  s !! "hasOwnProperty" = None → makeReCache_lookup s key = Ret (s !! key).
Proof. rewrite !lookup_own. unfold makeReCache_lookup. by intros ->. Qed.

Lemma makeReCache_lookup_ret (s : store RegExp RegExp) key r :
  makeReCache_lookup s key = Ret r → s !! "hasOwnProperty" = None ∧ r = s !! key.
Proof.
  rewrite !lookup_own. unfold makeReCache_lookup.
  destruct (own s !! "hasOwnProperty"); [done|]. by intros [= <-].
Qed.

Lemma makeRe_build_ret pattern options w re w1 :
  makeRe_build pattern options w = (Ret re, w1) →
  re_id re = length (engine_log w) ∧
  Braces_makeRe (default [] options) pattern = inr (re_rx re) ∧
  w1 = set_makeReCache (cache_key pattern options) re
         (log (CallMakeRe (default [] options) pattern) w).
Proof.
  unfold makeRe_build.
  destruct (Braces_makeRe (default [] options) pattern) as [e|rx]; [done|].
  by intros [= <- <-].
Qed.

(** After a call that returned, the expression is an own property under
    the key, unless the key is [__proto__]. *)
Lemma makeRe_ret_stored pattern options w re w1 :
  makeRe pattern options w = (Ret re, w1) →
  cache_key pattern options ≠ "__proto__" →
  makeReCache w1 !! cache_key pattern options = Some re.
Proof.
  rewrite makeRe_spec. intros Hrun Hkey.
  assert (makeRe_build pattern options w = (Ret re, w1) →
          makeReCache w1 !! cache_key pattern options = Some re) as Hbuild.
  { intros (_ & _ & ->)%makeRe_build_ret. simpl.
    apply lookup_store_set_eq. by right. }
  destruct (build_key pattern options); [|done].
  destruct (strict_not_false (get (default [] options) "cache")); [|auto].
  destruct (makeReCache_lookup (makeReCache w) (cache_key pattern options))
    as [[re0|]|e] eqn:Hread; [|auto|done].
  injection Hrun as <- <-. by apply makeReCache_lookup_ret in Hread as [_ <-].
Qed.

(** A call that finds the expression returns it and changes nothing. *)
Lemma makeRe_stored pattern options w re :
  makeReCache w !! cache_key pattern options = Some re →
  makeReCache w !! "hasOwnProperty" = None →
  has_own (default [] options) "hasOwnProperty" = false →
  strict_not_false (get (default [] options) "cache") = true →
  makeRe pattern options w = (Ret re, w).
Proof.
  intros Hre Hplain Hopt Hon.
  by rewrite makeRe_spec, build_key_ok, Hon, makeReCache_lookup_plain, Hre.
Qed.

(** A call that returned had options without an own [hasOwnProperty]. *)
Lemma makeRe_ret_options pattern options w re w1 :
  makeRe pattern options w = (Ret re, w1) →
  has_own (default [] options) "hasOwnProperty" = false.
Proof.
  rewrite makeRe_spec.
  destruct (build_key pattern options) as [key|e] eqn:Hkey; [|done].
  intros _. by apply build_key_ret in Hkey as [_ ?].
Qed.


Lemma ids_bounded_log_all cs w : ids_bounded w → ids_bounded (log_all cs w).
Proof.
  intros Hw key re H. simpl in *. rewrite length_app.
  specialize (Hw key re H). lia.
Qed.

Lemma ids_bounded_set_cache key v w : ids_bounded w → ids_bounded (set_cache key v w).
Proof. intros Hw k re H. exact (Hw k re H). Qed.

Lemma ids_bounded_build pattern options w :
  ids_bounded w → ids_bounded (makeRe_build pattern options w).2.
Proof.
  intros Hw. unfold makeRe_build.
  destruct (Braces_makeRe (default [] options) pattern) as [e|rx]; simpl.
  - intros key re H. simpl in *. rewrite length_app. specialize (Hw key re H). lia.
  - intros key re H. simpl in *. rewrite length_app. simpl.
    destruct (decide (cache_key pattern options = key)) as [Heq|Hne].
    + subst key. destruct (makeReCache w !! cache_key pattern options) as [re0|] eqn:Hold.
      * rewrite lookup_store_set_eq in H by (left; by eexists).
        injection H as <-. simpl. lia.
      * destruct (decide (cache_key pattern options = "__proto__")) as [Hp|Hp].
        -- rewrite lookup_own in H, Hold. unfold store_set in H.
           rewrite Hold, decide_True in H by done. simpl in H. congruence.
        -- rewrite lookup_store_set_eq in H by (by right).
           injection H as <-. simpl. lia.
    + rewrite lookup_store_set_ne in H by done. specialize (Hw key re H). lia.
Qed.

Lemma ids_bounded_makeRe pattern options w :
  ids_bounded w → ids_bounded (makeRe pattern options w).2.
Proof.
  intros Hw. rewrite makeRe_spec.
  pose proof (ids_bounded_build pattern options w Hw) as Hb.
  destruct (build_key pattern options); [|done].
  destruct (strict_not_false (get (default [] options) "cache")); [|done].
  by destruct (makeReCache_lookup (makeReCache w) (cache_key pattern options))
    as [[re|]|e].
Qed.

(** *** The text of a key *)

Lemma append_empty_r (a : string) : a +:+ EmptyString = a.
Proof.
  induction a as [|x a IH]; [done|].
  change (String x (a +:+ EmptyString) = String x a). by rewrite IH.
Qed.

Lemma append_assoc (a b c : string) : (a +:+ b) +:+ c = a +:+ (b +:+ c).
Proof.
  induction a as [|x a IH]; [done|].
  change (String x ((a +:+ b) +:+ c) = String x (a +:+ (b +:+ c))).
  by rewrite IH.
Qed.

Lemma append_inv_head (a b c : string) : a +:+ b = a +:+ c → b = c.
Proof.
  induction a as [|x a IH]; [done|].
  change (String x (a +:+ b) = String x (a +:+ c) → b = c).
  intros [= H]. by apply IH.
Qed.

Lemma length_append (a b : string) :
  String.length (a +:+ b) = (String.length a + String.length b)%nat.
Proof.
  induction a as [|x a IH]; [done|].
  change (S (String.length (a +:+ b)) = S (String.length a + String.length b)).
  by rewrite IH.
Qed.

Lemma mentions_append c (a b : string) :
  mentions c (a +:+ b) = mentions c a || mentions c b.
Proof.
  induction a as [|x a IH]; [done|].
  change (bool_decide (x = c) || mentions c (a +:+ b) =
          bool_decide (x = c) || mentions c a || mentions c b).
  rewrite IH. by rewrite orb_assoc.
Qed.

(** The key is the pattern followed by one part for each own property,
    in enumeration order. *)
Lemma foldl_key_step (o l : Options) (key : string) :
  foldl (key_step o) key l =
  key +:+ foldr (fun kv acc => key_part o kv +:+ acc) EmptyString l.
Proof.
  revert key. induction l as [|kv l IH]; intros key; simpl.
  - by rewrite append_empty_r.
  - rewrite IH. unfold key_step, key_part. by rewrite !append_assoc.
Qed.

Lemma cache_key_cons pattern kv (o : Options) :
  ∃ rest, cache_key pattern (Some (kv :: o)) =
          pattern +:+ ";" +:+ kv.1 +:+ "=" +:+ rest.
Proof.
  unfold cache_key. rewrite foldl_key_step. simpl. unfold key_part at 1.
  eexists. by rewrite !append_assoc.
Qed.

Lemma cache_key_longer pattern kv (o : Options) :
  (String.length pattern < String.length (cache_key pattern (Some (kv :: o))))%nat.
Proof.
  destruct (cache_key_cons pattern kv o) as [rest ->].
  rewrite !length_append. simpl. lia.
Qed.

(** With an own property the key has a semicolon, which no member of
    [Object.prototype] has in its name. *)
Lemma cache_key_semicolon pattern (o : Options) :
  o ≠ [] → mentions ";"%char (cache_key pattern (Some o)) = true.
Proof.
  destruct o as [|kv o]; [done|]. intros _.
  destruct (cache_key_cons pattern kv o) as [rest ->].
  rewrite mentions_append.
  change (mentions ";" (";" +:+ kv.1 +:+ "=" +:+ rest)) with true.
  apply orb_true_r.
Qed.

Lemma cache_key_not_member pattern (o : Options) :
  o ≠ [] →
  cache_key pattern (Some o) ≠ "__proto__" ∧
  cache_key pattern (Some o) ≠ "hasOwnProperty".
Proof.
  intros Ho. pose proof (cache_key_semicolon pattern o Ho) as H.
  split; intros Heq; by rewrite Heq in H.
Qed.



(** *** Predicates *)

Lemma matcher_spec pattern options w :
  matcher pattern options w =
    match makeRe pattern options w with
    | (Ret re, w') => (Ret {| closed_re := re |}, w')
    | (Throw e, w') => (Throw e, w')
    end.
Proof. unfold matcher. js_unfold. by destruct (makeRe pattern options w) as [[re|e] w']. Qed.

Lemma isMatch_spec str pattern options w :
  isMatch str pattern options w =
    match build_key pattern options with
    | Throw e => (Throw e, w)
    | Ret _ =>
        match cache_hasOwnProperty (cache w) (cache_key pattern options) with
        | Throw e => (Throw e, w)
        | Ret true => (call (cache_get (cache w) (cache_key pattern options)) str, w)
        | Ret false =>
            match matcher pattern options w with
            | (Ret f, w') =>
                (Ret (Boolean (apply_predicate f str)),
                 set_cache (cache_key pattern options) (VFunction f) w')
            | (Throw e, w') => (Throw e, w')
            end
        end
    end.
Proof.
  unfold isMatch. unfold reads, bind at 1.
  destruct (build_key pattern options) as [key|e] eqn:Hkey; [|done].
  apply build_key_ret in Hkey as [-> _]. unfold bind at 1.
  destruct (cache_hasOwnProperty (cache w) (cache_key pattern options))
    as [[|]|e]; [| |done].
  - unfold bind, gets. by destruct (call _ str).
  - js_unfold. by destruct (matcher pattern options w) as [[f|e] w'].
Qed.

Lemma cache_hasOwnProperty_plain (s : store value object_value) key :
  s !! "hasOwnProperty" = None →
  cache_hasOwnProperty s key = Ret (bool_decide (is_Some (s !! key))).
Proof. rewrite !lookup_own. unfold cache_hasOwnProperty. by intros ->. Qed.

(** With the method of [Object.prototype] in place, a stored entry is
    found and called. *)
Lemma isMatch_hit str pattern options w v :
  has_own (default [] options) "hasOwnProperty" = false →
  cache w !! "hasOwnProperty" = None →
  cache w !! cache_key pattern options = Some v →
  isMatch str pattern options w = (call (Some (Stored v)) str, w).
Proof.
  intros Hopt Hplain Hv.
  rewrite isMatch_spec, build_key_ok, cache_hasOwnProperty_plain, Hv by done.
  rewrite bool_decide_eq_true_2 by (by eexists).
  by rewrite (cache_get_stored _ _ v).
Qed.

(** With the method of [Object.prototype] in place and no entry under
    the key, the predicate is built and written. *)
Lemma isMatch_miss str pattern options w :
  cache w !! "hasOwnProperty" = None →
  cache w !! cache_key pattern options = None →
  isMatch str pattern options w =
    match matcher pattern options w with
    | (Ret f, w') =>
        (Ret (Boolean (apply_predicate f str)),
         set_cache (cache_key pattern options) (VFunction f) w')
    | (Throw e, w') => (Throw e, w')
    end.
Proof.
  intros Hplain Hv. rewrite isMatch_spec, cache_hasOwnProperty_plain, Hv by done.
  rewrite bool_decide_eq_false_2 by (by intros [? [=]]).
  destruct (build_key pattern options) as [key|e] eqn:Hkey; [done|].
  rewrite matcher_spec, makeRe_spec, Hkey. done.
Qed.

Lemma matcher_keeps_cache pattern options w :
  cache (matcher pattern options w).2 = cache w.
Proof.
  rewrite matcher_spec, makeRe_spec. unfold makeRe_build.
  destruct (build_key pattern options); [|done].
  destruct (strict_not_false (get (default [] options) "cache")).
  - destruct (makeReCache_lookup (makeReCache w) (cache_key pattern options))
      as [[re|]|e]; [done| |done].
    by destruct (Braces_makeRe (default [] options) pattern).
  - by destruct (Braces_makeRe (default [] options) pattern).
Qed.

Lemma matcher_ret_options pattern options w f w1 :
  matcher pattern options w = (Ret f, w1) →
  has_own (default [] options) "hasOwnProperty" = false.
Proof.
  rewrite matcher_spec.
  destruct (makeRe pattern options w) as [[re|e] w'] eqn:Hre; [|done].
  intros _. by apply (makeRe_ret_options _ _ _ _ _ Hre).
Qed.

Lemma isMatch_ret_options str pattern options w r w1 :
  isMatch str pattern options w = (Ret r, w1) →
  has_own (default [] options) "hasOwnProperty" = false.
Proof.
  rewrite isMatch_spec.
  destruct (build_key pattern options) as [key|e] eqn:Hkey; [|done].
  intros _. by apply build_key_ret in Hkey as [_ ?].
Qed.

(** With the method in place and a key that is neither [__proto__] nor
    [hasOwnProperty], a call that returned a boolean leaves a predicate
    under the key and the method in place. *)
Lemma isMatch_ret_stored str pattern options w (b : bool) w1 :
  isMatch str pattern options w = (Ret (Boolean b), w1) →
  cache w !! "hasOwnProperty" = None →
  cache_key pattern options ≠ "__proto__" →
  cache_key pattern options ≠ "hasOwnProperty" →
  cache w1 !! "hasOwnProperty" = None ∧
  ∃ f, cache w1 !! cache_key pattern options = Some (VFunction f) ∧
       b = apply_predicate f str.
Proof.
  intros Hrun Hplain Hproto Hmethod.
  destruct (cache w !! cache_key pattern options) as [v|] eqn:Hv.
  - rewrite (isMatch_hit _ _ _ _ v) in Hrun
      by (done || by apply (isMatch_ret_options _ _ _ _ _ _ Hrun)).
    destruct v as [o|f]; simpl in Hrun; [done|].
    injection Hrun as <- <-. split; [done|]. by exists f.
  - rewrite (isMatch_miss _ _ _ _ Hplain Hv) in Hrun.
    pose proof (matcher_keeps_cache pattern options w) as Hsame.
    destruct (matcher pattern options w) as [[f|e] w']; [|done].
    injection Hrun as <- <-. simpl in *. rewrite Hsame. split.
    + by rewrite store_set_keeps_method.
    + exists f. split; [|done]. apply lookup_store_set_eq. by right.
Qed.

Lemma isMatch_stored str pattern options w f :
  has_own (default [] options) "hasOwnProperty" = false →
  cache w !! "hasOwnProperty" = None →
  cache w !! cache_key pattern options = Some (VFunction f) →
  isMatch str pattern options w = (Ret (Boolean (apply_predicate f str)), w).
Proof. intros Hopt Hplain Hf. by rewrite (isMatch_hit _ _ _ _ _ Hopt Hplain Hf). Qed.


(** C2 fails on the code: [braces] and [braces.isMatch] share the one
    object [cache].  After a call of [braces] that compiled a pattern,
    [braces.isMatch] with no options finds the stored output under the
    same key, takes it for its predicate and calls it: a [TypeError].
    (The method [hasOwnProperty] of [cache] is the one of
    [Object.prototype]: no entry shadows it.) *)
Theorem isMatch_after_braces_throws str pattern options w c :
  cache_hit w pattern = None →
  (compile pattern options w).1 = Ret c →
  cache w !! "hasOwnProperty" = None →
  (isMatch str pattern None (braces pattern options w).2).1 =
    Throw (TypeError "matcher is not a function").
Proof.
  intros Hmiss Hc Hplain. rewrite compile_spec in Hc. simpl in Hc.
  rewrite (braces_miss _ _ _ Hmiss), Hc. cbn [fst snd].
  assert (pattern ≠ "hasOwnProperty") as Hne.
  { intros ->. unfold cache_hit, cache_get in Hmiss.
    rewrite lookup_own in Hplain. rewrite Hplain in Hmiss.
    by vm_compute in Hmiss. }
  rewrite (isMatch_hit _ _ None _ (VOutput (output c))); [done|done| |].
  - simpl. by rewrite store_set_keeps_method.
  - simpl. apply lookup_store_set_eq. by apply cache_hit_none_settable.
Qed.

(** *** Filtering *)


Lemma join_split_go (s cur : string) :
  join_empty (split_go backslash s cur) = cur +:+ remove_backslashes s.
Proof.
  revert cur. induction s as [|c s IH]; intros cur; simpl.
  - done.
  - destruct (decide (c = backslash)) as [->|Hne]; simpl.
    + unfold join_empty in IH. by rewrite IH.
    + by rewrite IH, append_assoc.
Qed.

(** [pattern.split('\').join('')] removes every backslash. *)
Lemma join_split_backslash (s : string) :
  join_empty (split backslash s) = remove_backslashes s.
Proof. unfold split. by rewrite join_split_go. Qed.

Lemma match_loop_filter (f : predicate) (arr res : list string) :
  match_loop f arr res = res ++ filter (apply_predicate f) arr.
Proof.
  revert res. induction arr as [|ele arr IH]; intros res; simpl.
  - by rewrite app_nil_r.
  - rewrite IH, filter_cons.
    destruct (apply_predicate f ele) eqn:Hele.
    + rewrite decide_True by done. by rewrite <- app_assoc.
    + by rewrite decide_False by (by intros []).
Qed.

Lemma match_spec arr pattern options w :
  match_ arr pattern options w =
    match matcher pattern (Some (default [] options)) w with
    | (Ret f, w') =>
        (match_result (default [] options) pattern
           (filter (apply_predicate f) (utils_arrayify arr)), w')
    | (Throw e, w') => (Throw e, w')
    end.
Proof.
  unfold match_, match_result. js_unfold.
  destruct (matcher pattern (Some (default [] options)) w) as [[f|e] w']; [|done].
  rewrite match_loop_filter. simpl.
  destruct (bool_decide (length (filter (apply_predicate f) (utils_arrayify arr)) = 0));
    [|done].
  destruct (strict_true (get (default [] options) "failglob")); [done|].
  by destruct (strict_true (get (default [] options) "nonull")
               || strict_true (get (default [] options) "nullglob")).
Qed.

Lemma strict_true_iff v : strict_true v = true ↔ v = PBool true.
Proof. destruct v as [| |[|]| |]; simpl; split; congruence. Qed.

Lemma strict_true_false v : v ≠ PBool true → strict_true v = false.
Proof. destruct v as [| |[|]| |]; simpl; congruence. Qed.

(** C5. Once the predicate is built, [braces.match] applies its
    empty-result policy exactly when no candidate is retained: with
    [failglob === true] it throws an error whose message carries the
    pattern; otherwise, with [nonull === true] or [nullglob === true], it
    returns the one-element sequence holding the pattern with every
    backslash removed; otherwise it returns the empty sequence.  When a
    candidate is retained the three options play no part. *)
Theorem match_empty_policy arr pattern options w f w' :
  matcher pattern (Some (default [] options)) w = (Ret f, w') →
  let o := default [] options in
  let kept := filter (apply_predicate f) (utils_arrayify arr) in
  (kept ≠ [] → match_ arr pattern options w = (Ret kept, w')) ∧
  (kept = [] →
   (get o "failglob" = PBool true →
    match_ arr pattern options w = (Throw (Error (no_matches_message pattern)), w')) ∧
   (get o "failglob" ≠ PBool true →
    get o "nonull" = PBool true ∨ get o "nullglob" = PBool true →
    match_ arr pattern options w = (Ret [remove_backslashes pattern], w')) ∧
   (get o "failglob" ≠ PBool true →
    get o "nonull" ≠ PBool true →
    get o "nullglob" ≠ PBool true →
    match_ arr pattern options w = (Ret [], w'))).
Proof.
  intros Hm o kept. rewrite match_spec, Hm. fold o kept. unfold match_result.
  split.
  - intros Hkept. rewrite bool_decide_eq_false_2; [done|].
    by destruct kept.
  - intros ->. simpl. repeat split.
    + intros ->. done.
    + intros Hfail Hnull. rewrite (strict_true_false _ Hfail).
      rewrite join_split_backslash.
      destruct Hnull as [->| ->]; simpl; [done|by rewrite orb_true_r].
    + intros Hfail Hnonull Hnullglob.
      by rewrite !strict_true_false by done.
Qed.

(** C9. When some candidate is retained, [braces.match] returns the
    candidates (a lone string counting as a one-element sequence) that
    the predicate built for the pattern accepts, in their original order:
    a subsequence of the input, each element of which is an element of
    the input that the predicate accepts. *)
Theorem match_filters_in_order arr pattern options w f w' :
  matcher pattern (Some (default [] options)) w = (Ret f, w') →
  let kept := filter (apply_predicate f) (utils_arrayify arr) in
  kept ≠ [] →
  match_ arr pattern options w = (Ret kept, w') ∧
  kept `sublist_of` utils_arrayify arr ∧
  ∀ ele, ele ∈ kept ↔ ele ∈ utils_arrayify arr ∧ apply_predicate f ele = true.
Proof.
  intros Hm kept Hkept. split; [|split].
  - rewrite match_spec, Hm. fold kept. unfold match_result.
    rewrite bool_decide_eq_false_2; [done|]. by destruct kept.
  - apply sublist_filter.
  - intros ele. unfold kept. rewrite list_elem_of_filter.
    rewrite Is_true_true. tauto.
Qed.

(** *** [ids_bounded] holds in every state the facade can reach *)



(** *** [ids_bounded] holds in every state the facade can reach *)

Lemma ids_bounded_matcher pattern options w :
  ids_bounded w → ids_bounded (matcher pattern options w).2.
Proof.
  intros Hw. rewrite matcher_spec.
  pose proof (ids_bounded_makeRe pattern options w Hw) as H.
  by destruct (makeRe pattern options w) as [[re|e] w'].
Qed.

Lemma ids_bounded_compile str options w :
  ids_bounded w → ids_bounded (compile str options w).2.
Proof. rewrite compile_spec. apply ids_bounded_log_all. Qed.

Lemma ids_bounded_braces str options w :
  ids_bounded w → ids_bounded (braces str options w).2.
Proof.
  intros Hw. destruct (cache_hit w str) as [v|] eqn:Hhit.
  - by rewrite (braces_hit _ options _ _ Hhit).
  - rewrite (braces_miss _ options _ Hhit).
    destruct (compile_result str options); simpl.
    + by apply ids_bounded_set_cache, ids_bounded_log_all.
    + by apply ids_bounded_log_all.
Qed.

Lemma ids_bounded_expand str options w :
  ids_bounded w → ids_bounded (expand str options w).2.
Proof.
  intros Hw. unfold expand.
  destruct (bool_decide (str = EmptyString) || bool_decide (String.length str ≤ 2)%nat);
    [done|].
  unfold bind. rewrite compile_spec.
  destruct (compile_result str _); simpl; by apply ids_bounded_log_all.
Qed.

Lemma ids_bounded_match arr pattern options w :
  ids_bounded w → ids_bounded (match_ arr pattern options w).2.
Proof.
  intros Hw. rewrite match_spec.
  pose proof (ids_bounded_matcher pattern (Some (default [] options)) w Hw) as H.
  by destruct (matcher pattern (Some (default [] options)) w) as [[f|e] w'].
Qed.

Lemma ids_bounded_isMatch str pattern options w :
  ids_bounded w → ids_bounded (isMatch str pattern options w).2.
Proof.
  intros Hw. rewrite isMatch_spec.
  destruct (build_key pattern options); [|done].
  destruct (cache_hasOwnProperty (cache w) (cache_key pattern options))
    as [[|]|e]; [done| |done].
  pose proof (ids_bounded_matcher pattern options w Hw) as H.
  destruct (matcher pattern options w) as [[f|e] w']; simpl in *; [|done].
  by apply ids_bounded_set_cache.
Qed.

End Properties.

(** * Further properties of the facade *)

Section Further.
Context `{Ext : Externals}.
Implicit Types (w : World) (str pattern : string) (options : option Options).


(** X2. [braces] writes at most the entry of its own pattern: every
    other key of [cache] and the whole of [makeReCache] are as before. *)
Theorem braces_frame str options w :
  (∀ key, key ≠ str → cache (braces str options w).2 !! key = cache w !! key) ∧
  makeReCache (braces str options w).2 = makeReCache w.
Proof.
  destruct (cache_hit w str) as [v|] eqn:Hhit.
  - by rewrite (braces_hit _ options _ _ Hhit).
  - rewrite (braces_miss _ _ _ Hhit).
    destruct (compile_result str options); simpl; [|done].
    split; [|done]. intros key Hkey. by rewrite lookup_store_set_ne.
Qed.

(** X3. [braces.expand] uses no cache: what it returns is the same in
    every state, it leaves [cache] and [makeReCache] as they are, and for
    a pattern longer than 2 every call goes to the engine. *)
Theorem expand_uses_no_cache str options w w' :
  (expand str options w).1 = (expand str options w').1 ∧
  cache (expand str options w).2 = cache w ∧
  makeReCache (expand str options w).2 = makeReCache w ∧
  ((2 < String.length str)%nat →
   ∃ ctor escaped rest,
     engine_log (expand str options w).2 =
       engine_log w ++ CallParse ctor escaped ctor :: rest).
Proof.
  unfold expand.
  destruct (bool_decide (str = EmptyString) || bool_decide (String.length str ≤ 2)%nat)
    eqn:Hshort.
  - repeat split; try done. intros Hlen.
    apply orb_true_iff in Hshort as [H|H].
    + apply bool_decide_eq_true_1 in H. subst str. simpl in Hlen. lia.
    + apply bool_decide_eq_true_1 in H. lia.
  - unfold bind. rewrite !compile_spec.
    destruct (compile_result str _); simpl; repeat split; try done;
      intros _; unfold compile_calls; eauto.
Qed.

(** *** The cache key *)

(** X4. The cache key is the bare pattern exactly when there are no
    options or the options object has no own property. *)
Theorem cache_key_is_pattern_iff pattern options :
  cache_key pattern options = pattern ↔ options = None ∨ options = Some [].
Proof.
  split.
  - destruct options as [[|kv o]|]; [by right| |by left].
    intros H. pose proof (cache_key_longer pattern kv o) as Hlen.
    rewrite H in Hlen. lia.
  - by intros [-> | ->].
Qed.

Lemma name_before_equals (k1 k2 r1 r2 : string) :
  mentions "="%char k1 = false → mentions "="%char k2 = false →
  k1 +:+ "=" +:+ r1 = k2 +:+ "=" +:+ r2 → k1 = k2.
Proof.
  revert k2. induction k1 as [|x k1 IH]; intros [|y k2]; simpl; intros H1 H2.
  - done.
  - change (String "=" r1 = String y (k2 +:+ "=" +:+ r2) → EmptyString = String y k2).
    intros [= <- _]. by rewrite bool_decide_eq_true_2 in H2.
  - change (String x (k1 +:+ "=" +:+ r1) = String "=" r2 → String x k1 = EmptyString).
    intros [= -> _]. by rewrite bool_decide_eq_true_2 in H1.
  - change (String x (k1 +:+ "=" +:+ r1) = String y (k2 +:+ "=" +:+ r2) →
            String x k1 = String y k2).
    apply orb_false_elim in H1 as [_ H1]. apply orb_false_elim in H2 as [_ H2].
    intros [= -> H]. f_equal. by apply (IH k2).
Qed.

(** X5. The key depends on the enumeration order: two options objects
    whose first enumerated property names differ (names without [=])
    have different keys for the same pattern, even when they hold the
    same properties. *)
Theorem cache_key_order_sensitive pattern k1 v1 k2 v2 (rest1 rest2 : Options) :
  k1 ≠ k2 →
  mentions "="%char k1 = false →
  mentions "="%char k2 = false →
  cache_key pattern (Some ((k1, v1) :: rest1)) ≠
  cache_key pattern (Some ((k2, v2) :: rest2)).
Proof.
  intros Hne H1 H2 Heq.
  destruct (cache_key_cons pattern (k1, v1) rest1) as [r1 Hr1].
  destruct (cache_key_cons pattern (k2, v2) rest2) as [r2 Hr2].
  rewrite Hr1, Hr2 in Heq. simpl in Heq.
  apply append_inv_head in Heq.
  change (String ";" (k1 +:+ "=" +:+ r1) = String ";" (k2 +:+ "=" +:+ r2)) in Heq.
  injection Heq as Heq. by apply Hne, (name_before_equals _ _ r1 r2).
Qed.


(** X6. Keys of different calls can coincide: after [braces.makeRe] has
    returned an expression for a pattern with an options object that has
    an own property, the call with the key itself as the pattern and no
    options is a call for a different pattern, and, when no entry of
    [makeReCache] shadows its method [hasOwnProperty], it is served that
    same expression without the engine being asked. *)
Theorem makeRe_key_collision pattern (o : Options) w re w1 :
  makeRe pattern (Some o) w = (Ret re, w1) →
  o ≠ [] →
  makeReCache w !! "hasOwnProperty" = None →
  cache_key pattern (Some o) ≠ pattern ∧
  makeRe (cache_key pattern (Some o)) None w1 = (Ret re, w1).
Proof.
  intros Hrun Ho Hplain.
  destruct (cache_key_not_member pattern o Ho) as [Hproto Hmethod]. split.
  - destruct o as [|kv o]; [done|]. intros H.
    pose proof (cache_key_longer pattern kv o) as Hlen. rewrite H in Hlen. lia.
  - apply makeRe_stored; [by apply (makeRe_ret_stored _ _ _ _ _ Hrun)| |done|done].
    rewrite makeRe_spec in Hrun. unfold makeRe_build in Hrun.
    destruct (build_key pattern (Some o)); [|done].
    assert (∀ w', makeReCache w' = makeReCache w →
              makeReCache
                (set_makeReCache (cache_key pattern (Some o)) re w') !! "hasOwnProperty"
              = None) as Hset.
    { intros w' Hw'. simpl. by rewrite store_set_keeps_method, Hw'. }
    destruct (strict_not_false (get (default [] (Some o)) "cache")).
    + destruct (makeReCache_lookup (makeReCache w) (cache_key pattern (Some o)))
        as [[re0|]|e]; [by injection Hrun as _ <-| |done].
      destruct (Braces_makeRe (default [] (Some o)) pattern); [done|].
      injection Hrun as <- <-. by apply Hset.
    + destruct (Braces_makeRe (default [] (Some o)) pattern); [done|].
      injection Hrun as <- <-. by apply Hset.
Qed.

(** *** Sequences of calls *)

Lemma extends_refl w : extends w w.
Proof. by repeat split. Qed.

Lemma extends_trans w1 w2 w3 : extends w1 w2 → extends w2 w3 → extends w1 w3.
Proof.
  intros (Ha & Hb & Hc) (Ha' & Hb' & Hc'). repeat split.
  - by etrans.
  - by etrans.
  - by etrans.
Qed.

Lemma extends_log_all cs w : extends w (log_all cs w).
Proof. repeat split; try done. simpl. by apply prefix_app_r. Qed.

Lemma extends_log c w : extends w (log c w).
Proof. repeat split; try done. simpl. by apply prefix_app_r. Qed.

Lemma extends_set_cache key v w : extends w (set_cache key v w).
Proof. repeat split; try done. simpl. apply dom_store_set. Qed.

Lemma extends_set_makeReCache key re w : extends w (set_makeReCache key re w).
Proof. repeat split; try done. simpl. apply dom_store_set. Qed.

Lemma extends_compile str options w : extends w (compile str options w).2.
Proof. rewrite compile_spec. apply extends_log_all. Qed.

Lemma extends_braces str options w : extends w (braces str options w).2.
Proof.
  destruct (cache_hit w str) as [v|] eqn:Hhit.
  - rewrite (braces_hit _ options _ _ Hhit). apply extends_refl.
  - rewrite (braces_miss _ options _ Hhit).
    destruct (compile_result str options); simpl.
    + eapply extends_trans; [apply extends_log_all|apply extends_set_cache].
    + apply extends_log_all.
Qed.

Lemma extends_expand str options w : extends w (expand str options w).2.
Proof.
  unfold expand.
  destruct (bool_decide (str = EmptyString) || bool_decide (String.length str ≤ 2)%nat).
  - apply extends_refl.
  - unfold bind. rewrite compile_spec.
    destruct (compile_result str _); apply extends_log_all.
Qed.

Lemma extends_build pattern options w : extends w (makeRe_build pattern options w).2.
Proof.
  unfold makeRe_build.
  destruct (Braces_makeRe (default [] options) pattern); simpl.
  - apply extends_log.
  - eapply extends_trans; [apply extends_log|apply extends_set_makeReCache].
Qed.

Lemma extends_makeRe pattern options w : extends w (makeRe pattern options w).2.
Proof.
  rewrite makeRe_spec. pose proof (extends_build pattern options w) as Hb.
  destruct (build_key pattern options); [|apply extends_refl].
  destruct (strict_not_false (get (default [] options) "cache")); [|done].
  destruct (makeReCache_lookup (makeReCache w) (cache_key pattern options))
    as [[re|]|e]; [apply extends_refl|done|apply extends_refl].
Qed.

Lemma extends_matcher pattern options w : extends w (matcher pattern options w).2.
Proof.
  rewrite matcher_spec. pose proof (extends_makeRe pattern options w) as H.
  by destruct (makeRe pattern options w) as [[re|e] w'].
Qed.

Lemma extends_match arr pattern options w : extends w (match_ arr pattern options w).2.
Proof.
  rewrite match_spec.
  pose proof (extends_matcher pattern (Some (default [] options)) w) as H.
  by destruct (matcher pattern (Some (default [] options)) w) as [[f|e] w'].
Qed.

Lemma extends_isMatch str pattern options w :
  extends w (isMatch str pattern options w).2.
Proof.
  rewrite isMatch_spec.
  destruct (build_key pattern options); [|apply extends_refl].
  destruct (cache_hasOwnProperty (cache w) (cache_key pattern options))
    as [[|]|e]; [apply extends_refl| |apply extends_refl].
  pose proof (extends_matcher pattern options w) as H.
  destruct (matcher pattern options w) as [[f|e] w']; simpl in *; [|done].
  eapply extends_trans; [exact H|apply extends_set_cache].
Qed.

Lemma extends_run_call c w : extends w (run_call c w).
Proof.
  destruct c; simpl.
  - apply extends_braces.
  - apply extends_compile.
  - apply extends_expand.
  - apply extends_match.
  - apply extends_isMatch.
  - apply extends_matcher.
  - apply extends_makeRe.
Qed.

(** X7. Nothing is ever evicted: over any sequence of calls of the
    facade, returning or throwing, every key of [cache] and of
    [makeReCache] stays, and the record of engine calls is only added
    to. *)
Theorem stores_never_shrink (cs : list facade_call) w :
  dom (cache w) ⊆ dom (cache (run_calls cs w)) ∧
  dom (makeReCache w) ⊆ dom (makeReCache (run_calls cs w)) ∧
  engine_log w `prefix_of` engine_log (run_calls cs w).
Proof.
  change (extends w (run_calls cs w)).
  revert w. induction cs as [|c cs IH]; intros w; simpl.
  - apply extends_refl.
  - eapply extends_trans; [apply extends_run_call|apply IH].
Qed.

Lemma makeRe_keeps pattern options w key re :
  strict_not_false (get (default [] options) "cache") = true →
  cache_key pattern options ≠ "hasOwnProperty" →
  kept key re w → kept key re (makeRe pattern options w).2.
Proof.
  intros Hon Hmethod [Hplain Hre]. rewrite makeRe_spec, Hon.
  destruct (build_key pattern options); [|done].
  rewrite makeReCache_lookup_plain by done.
  destruct (makeReCache w !! cache_key pattern options) as [re0|] eqn:Hread;
    [done|].
  assert (cache_key pattern options ≠ key) as Hne by congruence.
  unfold makeRe_build.
  destruct (Braces_makeRe (default [] options) pattern); simpl; [done|].
  split; simpl; by rewrite lookup_store_set_ne.
Qed.

Lemma matcher_keeps pattern options w key re :
  strict_not_false (get (default [] options) "cache") = true →
  cache_key pattern options ≠ "hasOwnProperty" →
  kept key re w → kept key re (matcher pattern options w).2.
Proof.
  intros Hon Hmethod Hkept. rewrite matcher_spec.
  pose proof (makeRe_keeps pattern options w key re Hon Hmethod Hkept) as H.
  by destruct (makeRe pattern options w) as [[re0|e] w'].
Qed.

Lemma run_call_keeps c w key re :
  gentle c → kept key re w → kept key re (run_call c w).
Proof.
  intros [Hon Hmethod] Hkept.
  destruct c as [str o|str o|str o|arr p o|str p o|p o|p o]; simpl in *.
  - destruct (cache_hit w str) as [v|] eqn:Hhit.
    + by rewrite (braces_hit _ o _ _ Hhit).
    + rewrite (braces_miss _ o _ Hhit). by destruct (compile_result str o).
  - by rewrite compile_spec.
  - unfold expand.
    destruct (bool_decide (str = EmptyString)
              || bool_decide (String.length str ≤ 2)%nat); [done|].
    unfold bind. rewrite compile_spec. by destruct (compile_result str _).
  - rewrite match_spec.
    assert (kept key re (matcher p (Some (default [] o)) w).2) as H.
    { apply matcher_keeps; [done| |done]. rewrite cache_key_default. congruence. }
    by destruct (matcher p (Some (default [] o)) w) as [[f|e] w'].
  - rewrite isMatch_spec.
    destruct (build_key p o); [|done].
    destruct (cache_hasOwnProperty (cache w) (cache_key p o)) as [[|]|e];
      [done| |done].
    assert (kept key re (matcher p o w).2) as H
      by (apply matcher_keeps; [done|congruence|done]).
    by destruct (matcher p o w) as [[f|e] w'].
  - apply matcher_keeps; [done|congruence|done].
  - apply makeRe_keeps; [done|congruence|done].
Qed.

Lemma makeRe_ret_kept pattern options w re w1 :
  makeRe pattern options w = (Ret re, w1) →
  strict_not_false (get (default [] options) "cache") = true →
  cache_key pattern options ≠ "__proto__" →
  cache_key pattern options ≠ "hasOwnProperty" →
  kept (cache_key pattern options) re w1.
Proof.
  intros Hrun Hon Hproto Hmethod.
  split; [|by apply (makeRe_ret_stored _ _ _ _ _ Hrun)].
  rewrite makeRe_spec, Hon in Hrun.
  destruct (build_key pattern options); [|done].
  destruct (makeReCache_lookup (makeReCache w) (cache_key pattern options))
    as [[re0|]|e] eqn:Hread; [| |done];
    apply makeReCache_lookup_ret in Hread as [Hplain _].
  - by injection Hrun as _ <-.
  - apply makeRe_build_ret in Hrun as (_ & _ & ->). simpl.
    by rewrite store_set_keeps_method.
Qed.

(** X8. With caching left on, an expression is built once.  After
    [braces.makeRe] has returned an expression for a key other than
    [__proto__] and [hasOwnProperty], with options that do not carry
    [cache: false], the same call returns that very instance, without
    calling the engine, after any sequence of calls of the facade none of
    which carries [cache: false] or has [hasOwnProperty] for its key. *)
Theorem makeRe_instance_stable pattern options w re w1 (cs : list facade_call) :
  makeRe pattern options w = (Ret re, w1) →
  strict_not_false (get (default [] options) "cache") = true →
  cache_key pattern options ≠ "__proto__" →
  cache_key pattern options ≠ "hasOwnProperty" →
  Forall gentle cs →
  makeRe pattern options (run_calls cs w1) = (Ret re, run_calls cs w1).
Proof.
  intros Hrun Hon Hproto Hmethod Hcs.
  pose proof (makeRe_ret_options _ _ _ _ _ Hrun) as Hopt.
  pose proof (makeRe_ret_kept _ _ _ _ _ Hrun Hon Hproto Hmethod) as Hkept.
  assert (kept (cache_key pattern options) re (run_calls cs w1)) as [Hplain Hre].
  { clear Hrun. revert w1 Hkept.
    induction Hcs as [|c cs Hc Hcs IH]; intros w1 Hkept; simpl; [done|].
    apply IH. by apply run_call_keeps. }
  by apply makeRe_stored.
Qed.

(** *** Predicates and filtering *)

(** X9. One build serves every string.  For a cache key other than
    [__proto__] and [hasOwnProperty], and a [cache] whose method
    [hasOwnProperty] no entry shadows: after [braces.isMatch] has
    returned a boolean, [cache] holds a predicate under the key, and the
    call for any other string returns that predicate's verdict and leaves
    the state, engine log included, as it is. *)
Theorem isMatch_serves_every_string str pattern options w (b : bool) w1 :
  isMatch str pattern options w = (Ret b, w1) →
  cache w !! "hasOwnProperty" = None →
  cache_key pattern options ≠ "__proto__" →
  cache_key pattern options ≠ "hasOwnProperty" →
  ∃ f, b = apply_predicate f str ∧
       ∀ str', isMatch str' pattern options w1 = (Ret (apply_predicate f str'), w1).
Proof.
  intros Hrun Hplain Hproto Hmethod.
  destruct (isMatch_ret_stored _ _ _ _ _ _ Hrun Hplain Hproto Hmethod)
    as (Hplain1 & f & Hf & Hb).
  exists f. split; [done|]. intros str'. apply isMatch_stored; [|done..].
  by apply (isMatch_ret_options _ _ _ _ _ _ Hrun).
Qed.

(** X10. On a miss [braces.isMatch] fills both stores consistently.
    For a cache key other than [__proto__] and [hasOwnProperty], and a
    [cache] whose method [hasOwnProperty] no entry shadows: the predicate
    stored in [cache] closes over the very expression that is in
    [makeReCache] under the same key, so that [braces.makeRe] with the
    same arguments and caching on returns that expression without calling
    the engine. *)
Theorem isMatch_miss_fills_both str pattern options w (b : bool) w1 :
  cache w !! cache_key pattern options = None →
  isMatch str pattern options w = (Ret b, w1) →
  cache w !! "hasOwnProperty" = None →
  cache_key pattern options ≠ "__proto__" →
  cache_key pattern options ≠ "hasOwnProperty" →
  ∃ re,
    cache w1 !! cache_key pattern options = Some (VFunction {| closed_re := re |}) ∧
    makeReCache w1 !! cache_key pattern options = Some re ∧
    (strict_not_false (get (default [] options) "cache") = true →
     makeRe pattern options w1 = (Ret re, w1)).
Proof.
  intros Hv Hrun Hplain Hproto Hmethod.
  rewrite (isMatch_miss _ _ _ _ Hplain Hv), matcher_spec in Hrun.
  destruct (makeRe pattern options w) as [[re|e] w'] eqn:Hre; [|done].
  injection Hrun as _ <-. exists re.
  pose proof (makeRe_ret_stored _ _ _ _ _ Hre Hproto) as Hstored.
  split; [|split].
  - simpl. apply lookup_store_set_eq. by right.
  - done.
  - intros Hon.
    destruct (makeRe_ret_kept _ _ _ _ _ Hre Hon Hproto Hmethod) as [Hp _].
    apply makeRe_stored; [done|done| |done].
    by apply (makeRe_ret_options _ _ _ _ _ Hre).
Qed.


Lemma build_again pattern options w re w1 w' :
  makeRe_build pattern options w = (Ret re, w1) →
  ∃ re' w2, makeRe_build pattern options w' = (Ret re', w2) ∧ re_rx re' = re_rx re.
Proof.
  unfold makeRe_build.
  destruct (Braces_makeRe (default [] options) pattern) as [e|rx]; [done|].
  intros [= <- <-]. by eexists _, _.
Qed.

Lemma makeRe_again pattern options w re w1 :
  makeRe pattern options w = (Ret re, w1) →
  cache_key pattern options ≠ "hasOwnProperty" →
  ∃ re' w2, makeRe pattern options w1 = (Ret re', w2) ∧ re_rx re' = re_rx re.
Proof.
  intros Hrun Hmethod. rewrite makeRe_spec in Hrun. rewrite makeRe_spec.
  destruct (build_key pattern options); [|done].
  destruct (strict_not_false (get (default [] options) "cache")).
  - destruct (makeReCache_lookup (makeReCache w) (cache_key pattern options))
      as [[re0|]|e] eqn:Hread; [| |done].
    + injection Hrun as <- <-. rewrite Hread. by eexists _, _.
    + apply makeReCache_lookup_ret in Hread as [Hplain Hnone].
      destruct (build_again _ _ _ _ _ w1 Hrun) as (re' & w2 & Hb & Hrx).
      apply makeRe_build_ret in Hrun as (_ & _ & Hw1).
      rewrite makeReCache_lookup_plain
        by (rewrite Hw1; simpl; by rewrite store_set_keeps_method).
      assert (makeReCache w1 !! cache_key pattern options =
              if decide (cache_key pattern options = "__proto__")
              then None else Some re) as ->.
      { rewrite Hw1. simpl.
        destruct (decide (cache_key pattern options = "__proto__")) as [Hp|Hp].
        - rewrite Hp in Hnone |- *. by rewrite lookup_store_set_proto.
        - apply lookup_store_set_eq. by right. }
      destruct (decide (cache_key pattern options = "__proto__")).
      * by exists re', w2.
      * by eexists _, _.
  - destruct (build_again _ _ _ _ _ w1 Hrun) as (re' & w2 & Hb & Hrx).
    by exists re', w2.
Qed.

Lemma matcher_again pattern options w f w1 :
  matcher pattern options w = (Ret f, w1) →
  cache_key pattern options ≠ "hasOwnProperty" →
  ∃ f' w2, matcher pattern options w1 = (Ret f', w2) ∧
           re_rx (closed_re f') = re_rx (closed_re f).
Proof.
  rewrite !matcher_spec. intros Hrun Hmethod.
  destruct (makeRe pattern options w) as [[re|e] w'] eqn:Hre; [|done].
  injection Hrun as <- <-.
  destruct (makeRe_again _ _ _ _ _ Hre Hmethod) as (re' & w2 & -> & Hrx).
  by eexists _, _.
Qed.

(** X12. For a key other than [hasOwnProperty], two predicates built by
    [braces.matcher] one after the other for the same pattern and
    options accept the same strings; with caching on and a key other
    than [__proto__], the second is built without the engine, over the
    same expression, and the state does not change. *)
Theorem matcher_rebuild_agrees pattern options w f w1 :
  matcher pattern options w = (Ret f, w1) →
  cache_key pattern options ≠ "hasOwnProperty" →
  (∃ f' w2, matcher pattern options w1 = (Ret f', w2) ∧
            ∀ str, apply_predicate f' str = apply_predicate f str) ∧
  (strict_not_false (get (default [] options) "cache") = true →
   cache_key pattern options ≠ "__proto__" →
   matcher pattern options w1 = (Ret f, w1)).
Proof.
  intros Hrun Hmethod. split.
  - destruct (matcher_again _ _ _ _ _ Hrun Hmethod) as (f' & w2 & Hagain & Hrx).
    exists f', w2. split; [done|]. intros str. unfold apply_predicate. by rewrite Hrx.
  - intros Hon Hproto. rewrite matcher_spec in Hrun. rewrite matcher_spec.
    destruct (makeRe pattern options w) as [[re|e] w'] eqn:Hre; [|done].
    injection Hrun as <- <-.
    destruct (makeRe_ret_kept _ _ _ _ _ Hre Hon Hproto Hmethod) as [Hplain Hstored].
    by rewrite (makeRe_stored _ _ _ _ Hstored Hplain
                  (makeRe_ret_options _ _ _ _ _ Hre) Hon).
Qed.

Lemma matcher_default pattern options w :
  matcher pattern (Some (default [] options)) w = matcher pattern options w.
Proof.
  rewrite !matcher_spec, !makeRe_spec. unfold makeRe_build.
  by rewrite build_key_default, cache_key_default.
Qed.

Lemma filter_filter_same (P : string → bool) (l : list string) :
  filter P (filter P l) = filter P l.
Proof.
  induction l as [|x l IH]; [done|].
  rewrite filter_cons. destruct (decide (P x)) as [HP|HP].
  - by rewrite filter_cons, decide_True, IH by done.
  - done.
Qed.

(** X13. [braces.match] is idempotent, for a key other than
    [hasOwnProperty]: whatever sequence it returns, be it the retained
    candidates, the pattern put in their place by [nonull] or
    [nullglob], or nothing, calling it again on that sequence with the
    same pattern and options returns the same sequence. *)
Theorem match_twice arr pattern options w res w1 :
  match_ arr pattern options w = (Ret res, w1) →
  cache_key pattern options ≠ "hasOwnProperty" →
  (match_ (Sequence res) pattern options w1).1 = Ret res.
Proof.
  intros Hrun Hmethod. rewrite match_spec in Hrun.
  destruct (matcher pattern (Some (default [] options)) w) as [[f|e] w'] eqn:Hm;
    [|done].
  destruct (matcher_again _ _ _ _ _ Hm) as (f' & w2 & Hagain & Hrx).
  { by rewrite cache_key_default. }
  injection Hrun as Hres <-.
  rewrite match_spec, Hagain. simpl.
  replace (apply_predicate f') with (apply_predicate f)
    by (unfold apply_predicate; by rewrite Hrx).
  revert Hres. unfold match_result.
  destruct (filter (apply_predicate f) (utils_arrayify arr)) as [|x kept] eqn:Hkept;
    simpl.
  - destruct (strict_true (get (default [] options) "failglob")) eqn:Hfail; [done|].
    destruct (strict_true (get (default [] options) "nonull")
              || strict_true (get (default [] options) "nullglob")) eqn:Hnull.
    + intros [= <-]. rewrite filter_cons, filter_nil.
      destruct (decide (apply_predicate f (join_empty (split backslash pattern))));
        simpl; done.
    + intros [= <-]. by rewrite filter_nil.
  - intros [= <-]. rewrite <- Hkept, filter_filter_same, Hkept. done.
Qed.

(** X14. [braces.isMatch] and [braces.match] agree: when [cache] has
    nothing under the key, no entry shadows its method [hasOwnProperty],
    and [braces.isMatch] returns a verdict on a string, [braces.match]
    given that one string, in the same state, keeps it if the verdict is
    [true], and otherwise treats the result as empty. *)
Theorem isMatch_agrees_with_match str pattern options w (b : bool) w1 :
  cache w !! cache_key pattern options = None →
  cache w !! "hasOwnProperty" = None →
  isMatch str pattern options w = (Ret b, w1) →
  (match_ (Scalar str) pattern options w).1 =
    if b then Ret [str] else match_result (default [] options) pattern [].
Proof.
  intros Hv Hplain Hrun. rewrite (isMatch_miss _ _ _ _ Hplain Hv) in Hrun.
  rewrite match_spec, matcher_default.
  destruct (matcher pattern options w) as [[f|e] w'] eqn:Hm; [|done].
  injection Hrun as <- <-. simpl. rewrite filter_cons, filter_nil.
  by destruct (apply_predicate f str).
Qed.

(** X15. [braces.match] neither reads nor writes [cache]: what it
    returns or throws is the same in two states that have the same
    [makeReCache], and [cache] is as it was after the call. *)
Theorem match_ignores_cache arr pattern options w w' :
  makeReCache w = makeReCache w' →
  (match_ arr pattern options w).1 = (match_ arr pattern options w').1 ∧
  cache (match_ arr pattern options w).2 = cache w.
Proof.
  intros Hsame. split.
  - rewrite !match_spec, !matcher_spec, !makeRe_spec, Hsame. unfold makeRe_build.
    destruct (build_key pattern (Some (default [] options))); [|done].
    destruct (strict_not_false
                (get (default [] (Some (default [] options))) "cache")).
    + destruct (makeReCache_lookup (makeReCache w')
                  (cache_key pattern (Some (default [] options))))
        as [[re|]|e]; [done| |done].
      by destruct (Braces_makeRe (default [] (Some (default [] options))) pattern).
    + by destruct (Braces_makeRe (default [] (Some (default [] options))) pattern).
  - rewrite match_spec.
    pose proof (matcher_keeps_cache pattern (Some (default [] options)) w) as H.
    by destruct (matcher pattern (Some (default [] options)) w) as [[f|e] w1].
Qed.

(** X16. While the prototype of [makeReCache] is [Object.prototype],
    [braces.match] throws in four cases only: the options have an own
    property [hasOwnProperty], and the key loop throws a [TypeError]; an
    entry of [makeReCache] shadows its method [hasOwnProperty], caching
    is on, and line 190 throws a [TypeError]; the engine fails, and its
    failure is passed on as it is; or nothing is retained with
    [failglob] set, and the error carries the pattern, the expression
    built for the pattern being in [makeReCache] all the same unless the
    key is [__proto__]. *)
Theorem match_throw_cases arr pattern options w e :
  proto (makeReCache w) = None →
  (match_ arr pattern options w).1 = Throw e →
  (e = TypeError "options.hasOwnProperty is not a function" ∧
   has_own (default [] options) "hasOwnProperty" = true) ∨
  (e = TypeError "makeReCache.hasOwnProperty is not a function" ∧
   is_Some (makeReCache w !! "hasOwnProperty") ∧
   strict_not_false (get (default [] options) "cache") = true) ∨
  (∃ e', e = EngineFailure e' ∧
         Braces_makeRe (default [] options) pattern = inl e') ∨
  (e = Error (no_matches_message pattern) ∧
   get (default [] options) "failglob" = PBool true ∧
   (cache_key pattern options ≠ "__proto__" →
    is_Some (makeReCache (match_ arr pattern options w).2
             !! cache_key pattern options))).
Proof.
  intros _. rewrite match_spec, matcher_default.
  destruct (matcher pattern options w) as [[f|e0] w'] eqn:Hm; simpl.
  - unfold match_result.
    destruct (bool_decide _); [|done].
    destruct (strict_true (get (default [] options) "failglob")) eqn:Hfail.
    + intros [= <-]. do 3 right. split; [done|]. split; [by apply strict_true_iff|].
      intros Hproto. rewrite matcher_spec in Hm.
      destruct (makeRe pattern options w) as [[re|em] w0] eqn:Hre; [|done].
      injection Hm as _ <-. rewrite (makeRe_ret_stored _ _ _ _ _ Hre Hproto).
      by eexists.
    + by destruct (_ || _).
  - intros [= <-]. rewrite matcher_spec, makeRe_spec in Hm.
    destruct (build_key pattern options) as [key|ek] eqn:Hkey.
    + right. unfold makeRe_build in Hm.
      destruct (strict_not_false (get (default [] options) "cache")) eqn:Hon.
      * destruct (makeReCache_lookup (makeReCache w) (cache_key pattern options))
          as [[re|]|er] eqn:Hread; [done| |].
        -- right. left.
           destruct (Braces_makeRe (default [] options) pattern) as [e'|rx]; [|done].
           injection Hm as <- _. by exists e'.
        -- left. injection Hm as <- _. unfold makeReCache_lookup in Hread.
           rewrite lookup_own.
           destruct (own (makeReCache w) !! "hasOwnProperty"); [|done].
           injection Hread as <-. split; [done|]. split; [by eexists|done].
      * right. left.
        destruct (Braces_makeRe (default [] options) pattern) as [e'|rx]; [|done].
        injection Hm as <- _. by exists e'.
    + left. injection Hm as <- _. by apply build_key_throw in Hkey.
Qed.

Lemma remove_backslashes_clean s : mentions backslash (remove_backslashes s) = false.
Proof.
  induction s as [|c s IH]; [done|]. simpl.
  destruct (decide (c = backslash)) as [->|Hne]; [done|]. simpl.
  by rewrite bool_decide_eq_false_2.
Qed.

Lemma remove_backslashes_id s :
  mentions backslash s = false → remove_backslashes s = s.
Proof.
  induction s as [|c s IH]; [done|]. simpl. intros H.
  apply orb_false_elim in H as [Hc Hs]. apply bool_decide_eq_false_1 in Hc.
  rewrite decide_False by done. by rewrite IH.
Qed.

(** X17. The string that [nonull] and [nullglob] put in place of an
    empty result, [pattern.split('\\').join('')], has no backslash left,
    and is the pattern itself when the pattern has none. *)
Theorem strip_backslashes pattern :
  mentions backslash (join_empty (split backslash pattern)) = false ∧
  (mentions backslash pattern = false →
   join_empty (split backslash pattern) = pattern).
Proof.
  rewrite join_split_backslash. split.
  - apply remove_backslashes_clean.
  - apply remove_backslashes_id.
Qed.

(** X18. [cache] is shared in the other direction as well: after
    [braces.isMatch] has returned for a pattern with no options or with
    an empty options object, on a [cache] whose method [hasOwnProperty]
    no entry shadowed, [braces] for that pattern returns the stored
    predicate function, whatever its options, and does not call the
    engine. *)
Theorem braces_serves_stored_predicate str pattern options options' w (b : bool) w1 :
  isMatch str pattern options w = (Ret b, w1) →
  options = None ∨ options = Some [] →
  cache w !! "hasOwnProperty" = None →
  ∃ f, braces pattern options' w1 = (Ret (VFunction f), w1) ∧
       b = apply_predicate f str.
Proof.
  intros Hrun Hopt Hplain.
  assert (cache_key pattern options = pattern) as Hkey
    by (by destruct Hopt as [-> | ->]).
  rewrite isMatch_spec, Hkey, cache_hasOwnProperty_plain in Hrun by done.
  destruct (build_key pattern options); [|done].
  destruct (cache w !! pattern) as [v|] eqn:Hv.
  - rewrite bool_decide_eq_true_2 in Hrun by (by eexists).
    rewrite (cache_get_stored _ _ v) in Hrun by done.
    destruct v as [o|f]; simpl in Hrun; [done|].
    injection Hrun as Hb <-. exists f. split; [|done].
    apply braces_hit. unfold cache_hit. by rewrite (cache_get_stored _ _ (VFunction f)).
  - rewrite bool_decide_eq_false_2 in Hrun by (by intros [? [=]]).
    pose proof (matcher_keeps_cache pattern options w) as Hsame.
    destruct (matcher pattern options w) as [[f|e] w'] eqn:Hm; [|done].
    injection Hrun as Hb <-. exists f. split; [|done].
    apply braces_hit. unfold cache_hit, cache_get. simpl in *.
    rewrite Hsame. rewrite lookup_own in Hv. unfold store_set. rewrite Hv.
    destruct (decide (pattern = "__proto__")) as [->|Hne]; simpl.
    + by rewrite Hv.
    + by rewrite lookup_insert_eq.
Qed.

(** X19. A failure of the engine in [braces.makeRe] is not cached: both
    stores are as before, the one call to the engine is on record, and
    the same call made again asks the engine again and throws the same
    failure. *)
Theorem makeRe_throw_not_cached pattern options w e :
  (makeRe pattern options w).1 = Throw (EngineFailure e) →
  cache (makeRe pattern options w).2 = cache w ∧
  makeReCache (makeRe pattern options w).2 = makeReCache w ∧
  engine_log (makeRe pattern options w).2 =
    engine_log w ++ [CallMakeRe (default [] options) pattern] ∧
  makeRe pattern options (makeRe pattern options w).2 =
    (Throw (EngineFailure e),
     log (CallMakeRe (default [] options) pattern) (makeRe pattern options w).2).
Proof.
  rewrite !makeRe_spec. unfold makeRe_build.
  destruct (build_key pattern options) as [key|e0] eqn:Hkey.
  - destruct (strict_not_false (get (default [] options) "cache")).
    + destruct (makeReCache_lookup (makeReCache w) (cache_key pattern options))
        as [[re|]|e0] eqn:Hread; [done| |].
      * destruct (Braces_makeRe (default [] options) pattern) as [e'|rx] eqn:Hrx;
          [|done].
        simpl. intros [= <-]. split; [done|]. split; [done|]. split; [done|].
        by rewrite Hread.
      * simpl. intros [= ->]. unfold makeReCache_lookup in Hread.
        by destruct (own (makeReCache w) !! "hasOwnProperty").
    + destruct (Braces_makeRe (default [] options) pattern) as [e'|rx] eqn:Hrx;
        [|done].
      simpl. by intros [= <-].
  - simpl. intros [= ->]. by apply build_key_throw in Hkey as [[=] _].
Qed.

End Further.

(** * The facade over the engine of the brace-free fragment *)

Section Literal.
Import LiteralEngine.
Existing Instance literal.

Example braces_inherited_name :
  braces "constructor" None init = (Ret (Inherited "constructor"), init).
Proof. reflexivity. Qed.

Example match_keeps_order :
  (match_ (Sequence ["a"; "b"; "a"]) "a" None init).1 = Ret ["a"; "a"].
Proof. reflexivity. Qed.

Example match_nonull_strips_backslashes :
  (match_ (Sequence []) "x\y\" (Some [("nonull", PBool true)]) init).1 = Ret ["xy"].
Proof. reflexivity. Qed.

Example makeRe_key_with_options :
  cache_key "a" (Some [("cache", PBool false); ("n", PNum "1e+21")]) =
  "a;cache=false;n=1e+21".
Proof. reflexivity. Qed.

Example match_options_with_own_method :
  (match_ (Sequence ["a"]) "a" (Some [("hasOwnProperty", PBool true)]) init).1 =
  Throw (TypeError "options.hasOwnProperty is not a function").
Proof. reflexivity. Qed.



(** C3 as stated fails: a caller's [unescape: false] reaches the engine. *)
Lemma expand_honours_unescape :
  ¬ expand_delegates forced_three "abc" (Some [("unescape", PBool false)]).
Proof.
  intros H. destruct (H init) as (o & (_ & _ & Hu) & Heq).
  apply (f_equal (fun r => engine_log r.2)) in Heq.
  unfold bind in Heq. rewrite compile_spec in Heq.
  destruct (compile_result "abc" (Some o)); simpl in Heq;
    injection Heq as Heq _; subst o; discriminate Hu.
Qed.

Lemma expand_forces_expand_makeRe_witness :
  expand_delegates
    (forced_two (Some [("unescape", PBool false); ("expand", PBool false)]))
    "abc" (Some [("unescape", PBool false); ("expand", PBool false)]).
Proof. apply expand_forces_expand_makeRe. simpl. lia. Defined.

Lemma expand_short_witness :
  expand "{}" (Some [("expand", PBool false)]) init = (Ret (OArr ["{}"]), init).
Proof. apply expand_short. simpl. lia. Defined.

Lemma braces_falsy_recompiles_witness :
  (braces_each "" [None; Some [("makeRe", PBool true)]; None] init).1 =
    [Ret (Stored (VOutput (OStr ""))); Ret (Stored (VOutput (OStr "")));
     Ret (Stored (VOutput (OStr "")))] ∧
  length (engine_log (braces_each "" [None; Some [("makeRe", PBool true)]; None] init).2)
    = 6.
Proof.
  destruct (braces_falsy_recompiles "" [None; Some [("makeRe", PBool true)]; None] init)
    as (Hres & Hlog & _).
  - reflexivity.
  - intros o Ho. exists (compiled (OStr "")).
    repeat (apply elem_of_cons in Ho as [->|Ho]; [split; reflexivity|]).
    by apply elem_of_nil in Ho.
  - split; [exact Hres|]. rewrite Hlog. reflexivity.
Defined.

Lemma isMatch_after_braces_throws_witness :
  (isMatch "abc" "abc" None (braces "abc" None init).2).1 =
    Throw (TypeError "matcher is not a function").
Proof.
  apply (isMatch_after_braces_throws "abc" "abc" None init
           (compiled (OStr "abc")));
    reflexivity.
Defined.





Lemma match_empty_policy_witness :
  (match_ (Sequence ["z"]) "x\y"
     (Some [("nonull", PBool true); ("failglob", PBool true)]) init).1 =
    Throw (Error (no_matches_message "x\y")).
Proof.
  destruct (match_empty_policy (Sequence ["z"]) "x\y"
              (Some [("nonull", PBool true); ("failglob", PBool true)]) init
              {| closed_re := regexp 0 "x\y" |}
              (matcher "x\y"
                 (Some [("nonull", PBool true); ("failglob", PBool true)]) init).2)
    as [_ Hempty].
  - reflexivity.
  - destruct (Hempty eq_refl) as (Hfail & _). by rewrite (Hfail eq_refl).
Defined.

Lemma match_filters_in_order_witness :
  (match_ (Sequence ["a"; "b"; "a"]) "a" None init).1 = Ret ["a"; "a"].
Proof.
  destruct (match_filters_in_order (Sequence ["a"; "b"; "a"]) "a" None init
              {| closed_re := regexp 0 "a" |}
              (matcher "a" (Some []) init).2)
    as (Hrun & _).
  - reflexivity.
  - discriminate.
  - by rewrite Hrun.
Defined.

End Literal.

(** * The further properties over the engine of the brace-free fragment *)

Section LiteralFurther.
Import LiteralEngine.
Existing Instance literal.


Lemma expand_uses_no_cache_witness :
  ∃ ctor escaped rest,
    engine_log (expand "abc" None init).2 = [] ++ CallParse ctor escaped ctor :: rest.
Proof.
  destruct (expand_uses_no_cache "abc" None init init) as (_ & _ & _ & H).
  apply H. simpl. lia.
Defined.

Lemma cache_key_order_sensitive_witness :
  cache_key "p" (Some [("a", PNum "1"); ("b", PNum "2")]) ≠
  cache_key "p" (Some [("b", PNum "2"); ("a", PNum "1")]).
Proof. apply cache_key_order_sensitive; [discriminate|reflexivity|reflexivity]. Defined.

Lemma makeRe_key_collision_witness :
  makeRe "a;x=1" None (makeRe "a" (Some [("x", PNum "1")]) init).2 =
    (Ret (regexp 0 "a"), (makeRe "a" (Some [("x", PNum "1")]) init).2).
Proof.
  destruct (makeRe_key_collision "a" [("x", PNum "1")] init (regexp 0 "a")
              (makeRe "a" (Some [("x", PNum "1")]) init).2) as [_ H].
  - reflexivity.
  - discriminate.
  - reflexivity.
  - exact H.
Defined.

Lemma sample_calls_gentle : Forall gentle sample_calls.
Proof.
  repeat (constructor;
          [split; [reflexivity|intros Hkey; vm_compute in Hkey; discriminate Hkey]|]).
  constructor.
Defined.

Lemma makeRe_instance_stable_witness :
  makeRe "a" None (run_calls sample_calls (makeRe "a" None init).2) =
    (Ret (regexp 0 "a"), run_calls sample_calls (makeRe "a" None init).2).
Proof.
  apply (makeRe_instance_stable "a" None init (regexp 0 "a")).
  - reflexivity.
  - reflexivity.
  - discriminate.
  - discriminate.
  - apply sample_calls_gentle.
Defined.

Lemma isMatch_serves_every_string_witness :
  ∃ f, true = apply_predicate f "ab" ∧
       ∀ str', isMatch str' "ab" None (isMatch "ab" "ab" None init).2 =
               (Ret (apply_predicate f str'), (isMatch "ab" "ab" None init).2).
Proof.
  apply (isMatch_serves_every_string "ab" "ab" None init true);
    [reflexivity|reflexivity|discriminate|discriminate].
Defined.

Lemma isMatch_miss_fills_both_witness :
  ∃ re,
    cache (isMatch "ab" "ab" None init).2 !! "ab" =
      Some (VFunction {| closed_re := re |}) ∧
    makeReCache (isMatch "ab" "ab" None init).2 !! "ab" = Some re ∧
    (true = true → makeRe "ab" None (isMatch "ab" "ab" None init).2 =
                   (Ret re, (isMatch "ab" "ab" None init).2)).
Proof.
  apply (isMatch_miss_fills_both "ab" "ab" None init true);
    [reflexivity|reflexivity|reflexivity|discriminate|discriminate].
Defined.


Lemma matcher_rebuild_agrees_witness :
  matcher "a" None (matcher "a" None init).2 =
    (Ret {| closed_re := regexp 0 "a" |}, (matcher "a" None init).2).
Proof.
  destruct (matcher_rebuild_agrees "a" None init {| closed_re := regexp 0 "a" |}
              (matcher "a" None init).2) as [_ H].
  - reflexivity.
  - discriminate.
  - apply H; [reflexivity|discriminate].
Defined.

Lemma match_twice_witness :
  (match_ (Sequence ["a"; "a"]) "a" None
     (match_ (Sequence ["a"; "b"; "a"]) "a" None init).2).1 = Ret ["a"; "a"].
Proof.
  apply (match_twice (Sequence ["a"; "b"; "a"]) "a" None init);
    [reflexivity|discriminate].
Defined.

Lemma isMatch_agrees_with_match_witness :
  (match_ (Scalar "a") "a" None init).1 = Ret ["a"].
Proof.
  apply (isMatch_agrees_with_match "a" "a" None init true (isMatch "a" "a" None init).2);
    reflexivity.
Defined.

Lemma match_ignores_cache_witness :
  (match_ (Sequence ["a"]) "a" None init).1 =
  (match_ (Sequence ["a"]) "a" None (braces "a" None init).2).1.
Proof.
  destruct (match_ignores_cache (Sequence ["a"]) "a" None init
              (braces "a" None init).2) as [H _].
  - reflexivity.
  - exact H.
Defined.

Lemma match_throw_cases_witness :
  get [("failglob", PBool true)] "failglob" = PBool true ∧
  is_Some (makeReCache
             (match_ (Sequence ["b"]) "a" (Some [("failglob", PBool true)]) init).2
           !! cache_key "a" (Some [("failglob", PBool true)])).
Proof.
  destruct (match_throw_cases (Sequence ["b"]) "a" (Some [("failglob", PBool true)])
              init (Error (no_matches_message "a")))
    as [[Hopt _]|[[Hre _]|[(e' & He' & _)|(_ & Hfail & Hstored)]]].
  - reflexivity.
  - reflexivity.
  - discriminate Hopt.
  - discriminate Hre.
  - discriminate He'.
  - split; [exact Hfail|]. apply Hstored.
    intros Hkey. vm_compute in Hkey. discriminate Hkey.
Defined.

Lemma strip_backslashes_witness :
  join_empty (split backslash "x{y,z}") = "x{y,z}".
Proof.
  destruct (strip_backslashes "x{y,z}") as [_ H]. apply H. reflexivity.
Defined.

Lemma braces_serves_stored_predicate_witness :
  ∃ f, braces "ab" (Some [("expand", PBool true)]) (isMatch "ab" "ab" None init).2 =
         (Ret (VFunction f), (isMatch "ab" "ab" None init).2) ∧
       true = apply_predicate f "ab".
Proof.
  apply (braces_serves_stored_predicate "ab" "ab" None _ init true).
  - reflexivity.
  - by left.
  - reflexivity.
Defined.

Lemma makeRe_throw_not_cached_witness :
  engine_log (makeRe "a{" None init).2 = [] ++ [CallMakeRe [] "a{"].
Proof.
  destruct (makeRe_throw_not_cached (Ext := literal) "a{" None init
              "brace groups are not supported") as (_ & _ & H & _).
  - reflexivity.
  - exact H.
Defined.

End LiteralFurther.
